(** * Transposition table and static evaluation of Stockfish

    A shallow embedding of [src/tt.cpp] (the packed entry, [save],
    [relative_age], [resize], [clear], [probe], [hashfull]) and of
    [Eval::evaluate] from [src/evaluate.cpp], with the properties the
    specification states about them.

    Conventions.  Fixed-width unsigned integers are integers of [Z] with the
    wrap-around written out ([uint8], [uint16], [size_t]); the bit operations
    are those of [Z].  The table is a list of clusters and a cluster a list of
    entries; an access outside a list is undefined in C++ and shows here as
    [None].  The constants that [tt.h] and [types.h] declare
    ([DEPTH_ENTRY_OFFSET], [GENERATION_CYCLE], [GENERATION_MASK],
    [ClusterSize], [sizeof(Cluster)], the numbering of [Bound]) are variables
    of the section; a theorem that needs a fact about one of them says so in
    a hypothesis. *)

From Stdlib Require Import ZArith Lia List Bool String.
From stdpp Require Import base option list numbers pretty.

Local Open Scope Z_scope.

(** ** Fixed-width integers *)

Definition uint8 (x : Z) : Z := x mod 2 ^ 8.
Definition uint16 (x : Z) : Z := x mod 2 ^ 16.
Definition int16 (x : Z) : Z := (x + 2 ^ 15) mod 2 ^ 16 - 2 ^ 15.
(** [size_t] and [Key] on a 64-bit target. *)
Definition size_t (x : Z) : Z := x mod 2 ^ 64.

(** [bool] converted to an integer, as C++ does in arithmetic. *)
Definition b2z (b : bool) : Z := if b then 1 else 0.

(** [mul_hi64(a, b)]: the high 64 bits of the 128-bit product. *)
Definition mul_hi64 (a b : Z) : Z := Z.shiftr (a * b) 64.

Module TT.

(** [enum Bound] of [types.h]. *)
Inductive Bound : Type := BOUND_NONE | BOUND_UPPER | BOUND_LOWER | BOUND_EXACT.

Definition Bound_eqb (a b : Bound) : bool :=
  match a, b with
  | BOUND_NONE, BOUND_NONE | BOUND_UPPER, BOUND_UPPER
  | BOUND_LOWER, BOUND_LOWER | BOUND_EXACT, BOUND_EXACT => true
  | _, _ => false
  end.

(** [struct TTEntry]: the six packed fields, in declaration order. *)
Record TTEntry : Type := mkTTEntry {
  key16 : Z;
  depth8 : Z;
  genBound8 : Z;
  move16 : Z;
  value16 : Z;
  eval16 : Z
}.

(** What [memset(.., 0, ..)] leaves in an entry. *)
Definition zero_entry : TTEntry := mkTTEntry 0 0 0 0 0 0.

(** [struct Cluster { TTEntry entry[ClusterSize]; ... }]. *)
Record Cluster : Type := mkCluster { entry : list TTEntry }.

(** The members of [class TranspositionTable] that [tt.cpp] uses. *)
Record TranspositionTable : Type := mkTable {
  clusterCount : Z;
  table : list Cluster;
  generation8 : Z
}.

(** A [TTEntry*] into the table: the cluster and the slot inside it. *)
Definition TTEntryRef : Type := (Z * nat)%type.

(** [ThreadPool], as far as [clear] looks at it. *)
Record ThreadPool : Type := mkThreadPool { num_threads : Z }.

(** How a call of [resize] ends: it returns with the new table, or the
    process exits with a status after writing to [std::cerr], or a task of
    [clear] writes outside the block (undefined behaviour).  The heap is
    the one the call leaves. *)
Inductive Outcome (Heap : Type) : Type :=
| Returned (tt : TranspositionTable) (h : Heap)
| Exited (status : Z) (cerr : string) (h : Heap)
| OutOfBounds.
Arguments Returned {Heap} tt h.
Arguments Exited {Heap} status cerr h.
Arguments OutOfBounds {Heap}.

(** [EXIT_FAILURE] of [<cstdlib>]. *)
Definition EXIT_FAILURE : Z := 1.

Section Table.

Variable DEPTH_ENTRY_OFFSET : Z.
Variable GENERATION_CYCLE : Z.
Variable GENERATION_MASK : Z.
Variable ClusterSize : nat.
Variable sizeof_Cluster : Z.
(** The integer behind each enumerator of [Bound]. *)
Variable Bound_value : Bound -> Z.

(** *** TTEntry::relative_age *)

Definition relative_age (e : TTEntry) (generation8 : Z) : Z :=
  uint8 (Z.land (GENERATION_CYCLE + generation8 - genBound8 e) GENERATION_MASK).

(** *** TTEntry::save *)

(** The test of the first [if]: [m || uint16_t(k) != key16]. *)
Definition replaces_move (e : TTEntry) (k m : Z) : bool :=
  negb (m =? 0) || negb (uint16 k =? key16 e).

(** The test of the second [if]. *)
Definition overwrites (e : TTEntry) (k : Z) (pv : bool) (b : Bound) (d g : Z) : bool :=
  Bound_eqb b BOUND_EXACT
  || negb (uint16 k =? key16 e)
  || (d - DEPTH_ENTRY_OFFSET + 2 * b2z pv >? depth8 e - 4)
  || negb (relative_age e g =? 0).

(** The two assertions inside the second [if]; compiled out under [NDEBUG]. *)
Definition save_asserts (d : Z) : Prop :=
  d > DEPTH_ENTRY_OFFSET /\ d < 256 + DEPTH_ENTRY_OFFSET.

Definition save (e : TTEntry) (k v : Z) (pv : bool) (b : Bound) (d m ev g : Z)
  : TTEntry :=
  let e1 :=
    if replaces_move e k m
    then mkTTEntry (key16 e) (depth8 e) (genBound8 e) m (value16 e) (eval16 e)
    else e in
  if overwrites e1 k pv b d g
  then mkTTEntry (uint16 k)
                 (uint8 (d - DEPTH_ENTRY_OFFSET))
                 (uint8 (Z.lor (Z.lor g (Z.shiftl (uint8 (b2z pv)) 2)) (Bound_value b)))
                 (move16 e1)
                 (int16 v)
                 (int16 ev)
  else e1.

(** The overwrite decision the way the specification words it: the new
    bound is EXACT, or the key fragment differs, or the new depth plus the
    bonus for a principal-variation node exceeds the stored depth by more
    than the margin, or the entry is stale. *)
Definition pv_bonus (pv : bool) : Z := if pv then 2 else 0.
Definition overwrite_margin : Z := -4.
Definition stored_depth (e : TTEntry) : Z := depth8 e + DEPTH_ENTRY_OFFSET.

Definition overwrite_spec (e : TTEntry) (k : Z) (pv : bool) (b : Bound) (d g : Z)
  : Prop :=
  b = BOUND_EXACT
  \/ key16 e <> uint16 k
  \/ d + pv_bonus pv - stored_depth e > overwrite_margin
  \/ relative_age e g <> 0.

(** The five fields the second [if] assigns, as [save] would write them. *)
Definition payload_written (e' : TTEntry) (k v : Z) (pv : bool) (b : Bound)
           (d ev g : Z) : Prop :=
  key16 e' = uint16 k
  /\ depth8 e' = uint8 (d - DEPTH_ENTRY_OFFSET)
  /\ genBound8 e' = uint8 (Z.lor (Z.lor g (Z.shiftl (uint8 (b2z pv)) 2)) (Bound_value b))
  /\ value16 e' = int16 v
  /\ eval16 e' = int16 ev.

(** The same five fields, untouched. *)
Definition payload_kept (e e' : TTEntry) : Prop :=
  key16 e' = key16 e
  /\ depth8 e' = depth8 e
  /\ genBound8 e' = genBound8 e
  /\ value16 e' = value16 e
  /\ eval16 e' = eval16 e.

(** *** TranspositionTable::probe *)

(** Modelled from the spec: [first_entry], which [tt.h] defines and
    [tt.cpp] only calls.  Section 4.1: the owning cluster is the high 64 bits
    of the 128-bit product of the fingerprint and [clusterCount]. *)
Definition first_entry (tt : TranspositionTable) (key : Z) : Z :=
  mul_hi64 key (clusterCount tt).

(** The replace value of [probe]: [depth8 - relative_age(generation8) * 2]. *)
Definition replace_value (g : Z) (e : TTEntry) : Z :=
  depth8 e - relative_age e g * 2.

(** First loop: [for (int i = 0; i < ClusterSize; ++i) if (tte[i].key16 == key16) return ..],
    run for [n] more rounds from index [i]. *)
Fixpoint probe_match (tte : list TTEntry) (k16 : Z) (i n : nat)
  : option (option (nat * bool)) :=
  match n with
  | O => Some None
  | S n' =>
      e ← tte !! i;
      if key16 e =? k16
      then Some (Some (i, negb (depth8 e =? 0)))
      else probe_match tte k16 (S i) n'
  end.

(** Second loop: [for (int i = 1; i < ClusterSize; ++i) if (.. > ..) replace = &tte[i];],
    run for [n] more rounds from index [i] with the candidate [replace]. *)
Fixpoint probe_replace (g : Z) (tte : list TTEntry) (replace i n : nat)
  : option nat :=
  match n with
  | O => Some replace
  | S n' =>
      r ← tte !! replace;
      e ← tte !! i;
      probe_replace g tte
        (if replace_value g r >? replace_value g e then i else replace) (S i) n'
  end.

(** The pointer [probe] returns and what it stores in [found]. *)
Definition probe (tt : TranspositionTable) (key : Z) : option (TTEntryRef * bool) :=
  let ci := first_entry tt key in
  c ← table tt !! Z.to_nat ci;
  let tte := entry c in
  hit ← probe_match tte (uint16 key) 0 ClusterSize;
  match hit with
  | Some (i, found) => Some ((ci, i), found)
  | None =>
      replace ← probe_replace (generation8 tt) tte 0 1 (ClusterSize - 1);
      Some ((ci, replace), false)
  end.

(** *** TranspositionTable::hashfull *)

(** The summand [depth8 && (genBound8 & GENERATION_MASK) == generation8]. *)
Definition is_fresh (g : Z) (e : TTEntry) : bool :=
  negb (depth8 e =? 0) && (Z.land (genBound8 e) GENERATION_MASK =? g).

(** Inner loop over [j], [n] more rounds. *)
Fixpoint hashfull_entries (g : Z) (c : Cluster) (j n : nat) (cnt : Z) : option Z :=
  match n with
  | O => Some cnt
  | S n' =>
      e ← entry c !! j;
      hashfull_entries g c (S j) n' (cnt + b2z (is_fresh g e))
  end.

(** Outer loop over [i], [n] more rounds. *)
Fixpoint hashfull_clusters (tt : TranspositionTable) (i n : nat) (cnt : Z) : option Z :=
  match n with
  | O => Some cnt
  | S n' =>
      c ← table tt !! i;
      cnt' ← hashfull_entries (generation8 tt) c 0 ClusterSize cnt;
      hashfull_clusters tt (S i) n' cnt'
  end.

Definition hashfull (tt : TranspositionTable) : option Z :=
  cnt ← hashfull_clusters tt 0 1000 0;
  Some (Z.quot cnt (Z.of_nat ClusterSize)).

(** The number of fresh entries in a list of entries, and in the clusters
    of a list. *)
Definition fresh_entries (g : Z) (es : list TTEntry) : Z :=
  Z.of_nat (length (filter (fun e => is_fresh g e = true) es)).

Definition fresh_count (g : Z) (cs : list Cluster) : Z :=
  Z.of_nat (length (filter (fun e => is_fresh g e = true) (concat (map entry cs)))).

(** The contract of section 4.7, in the specification's words: the first
    1000 clusters, or all of them if fewer exist; entries that are occupied
    and stamped with the current generation; the count divided by the
    cluster size. *)
Definition hashfull_spec (tt : TranspositionTable) : Z :=
  fresh_count (generation8 tt) (take 1000 (table tt)) / Z.of_nat ClusterSize.

(** *** TranspositionTable::clear *)

Definition zero_cluster : Cluster := mkCluster (replicate ClusterSize zero_entry).

(** [std::memset(&table[start], 0, len * sizeof(Cluster))], in whole clusters. *)
Definition memset_clusters (t : list Cluster) (start len : Z) : option (list Cluster) :=
  if (0 <=? start) && (0 <=? len) && (start + len <=? Z.of_nat (length t))
  then Some (take (Z.to_nat start) t
             ++ replicate (Z.to_nat len) zero_cluster
             ++ drop (Z.to_nat (start + len)) t)
  else None.

(** [start] and [len] of the task given to thread [i]. *)
Definition clear_stride (count threadCount i : Z) : Z * Z :=
  let stride := count / threadCount in
  let start := size_t (stride * i) in
  let len := if negb (size_t (i + 1) =? threadCount) then stride
             else size_t (count - start) in
  (start, len).

(** The task thread [i] runs. *)
Definition clear_task (threadCount : Z) (tt : TranspositionTable) (i : Z)
  : option TranspositionTable :=
  let '(start, len) := clear_stride (clusterCount tt) threadCount i in
  t' ← memset_clusters (table tt) start len;
  Some (mkTable (clusterCount tt) t' (generation8 tt)).

(** The tasks taking effect in the order [order] (the threads run
    concurrently, so any order of the thread indices can happen). *)
Fixpoint run_tasks (threadCount : Z) (tt : TranspositionTable) (order : list Z)
  : option TranspositionTable :=
  match order with
  | [] => Some tt
  | i :: rest => tt' ← clear_task threadCount tt i; run_tasks threadCount tt' rest
  end.

(** The thread indices [0 .. threadCount - 1], as the dispatch loop visits them. *)
Definition thread_ids (threadCount : Z) : list Z :=
  map Z.of_nat (seq 0 (Z.to_nat threadCount)).

Definition clear (tt : TranspositionTable) (threads : ThreadPool)
  : option TranspositionTable :=
  run_tasks (num_threads threads) tt (thread_ids (num_threads threads)).

(** *** TranspositionTable::resize *)

(** The allocator of [memory.h]: a request for a number of bytes yields a
    block or fails, and changes the heap. *)
Variable Heap : Type.
Variable aligned_large_pages_alloc : Heap -> Z -> option (list Cluster) * Heap.
Variable aligned_large_pages_free : Heap -> list Cluster -> Heap.

(** What [std::cerr << "Failed to allocate " << mbSize << "MB ..." << std::endl] prints. *)
Definition resize_diagnostic (mbSize : Z) : string :=
  ("Failed to allocate " ++ pretty mbSize
   ++ "MB for transposition table." ++ String (Ascii.ascii_of_nat 10) EmptyString)%string.

(** [clusterCount = mbSize * 1024 * 1024 / sizeof(Cluster)] in [size_t]. *)
Definition resize_count (mbSize : Z) : Z :=
  size_t (size_t (mbSize * 1024) * 1024) / sizeof_Cluster.

Definition resize (tt : TranspositionTable) (h : Heap) (mbSize : Z) (threads : ThreadPool)
  : Outcome Heap :=
  let h1 := aligned_large_pages_free h (table tt) in
  let count := resize_count mbSize in
  match aligned_large_pages_alloc h1 (size_t (count * sizeof_Cluster)) with
  | (None, h2) => Exited EXIT_FAILURE (resize_diagnostic mbSize) h2
  | (Some mem, h2) =>
      match clear (mkTable count mem (generation8 tt)) threads with
      | Some tt' => Returned tt' h2
      | None => OutOfBounds
      end
  end.

(** *** Invariants of the table *)

(** Every cluster holds [ClusterSize] entries, and there is at least one. *)
Definition wf_cluster (c : Cluster) : Prop :=
  length (entry c) = ClusterSize /\ (0 < ClusterSize)%nat.

(** [table] points to [clusterCount] clusters; [clusterCount] is a [size_t]. *)
Definition wf_table (tt : TranspositionTable) : Prop :=
  Z.of_nat (length (table tt)) = clusterCount tt
  /\ clusterCount tt < 2 ^ 64
  /\ Forall wf_cluster (table tt).

(** Slot [r] holds the least replace value among the first [m] slots, and
    is the first slot to do so. *)
Definition first_least (g : Z) (tte : list TTEntry) (m r : nat) : Prop :=
  (r < m)%nat
  /\ exists er, tte !! r = Some er
     /\ (forall j ej, (j < m)%nat -> tte !! j = Some ej ->
                      replace_value g er <= replace_value g ej)
     /\ (forall j ej, (j < r)%nat -> tte !! j = Some ej ->
                      replace_value g er < replace_value g ej).

(** Cluster [c] lies in the stride of thread [i]. *)
Definition in_stride (count threadCount i c : Z) : Prop :=
  fst (clear_stride count threadCount i) <= c
  < fst (clear_stride count threadCount i) + snd (clear_stride count threadCount i).

(** The table after a completed [clear]. *)
Definition zero_table (tt : TranspositionTable) : TranspositionTable :=
  mkTable (clusterCount tt)
          (replicate (Z.to_nat (clusterCount tt)) zero_cluster)
          (generation8 tt).

(** [save] with the two assertions active, as a build without [NDEBUG] runs
    it: [None] when an assertion fails. *)
Definition save_checked (e : TTEntry) (k v : Z) (pv : bool) (b : Bound) (d m ev g : Z)
  : option TTEntry :=
  let e1 :=
    if replaces_move e k m
    then mkTTEntry (key16 e) (depth8 e) (genBound8 e) m (value16 e) (eval16 e)
    else e in
  if overwrites e1 k pv b d g
  then if (d >? DEPTH_ENTRY_OFFSET) && (d <? 256 + DEPTH_ENTRY_OFFSET)
       then Some (save e k v pv b d m ev g)
       else None
  else Some e1.

(** The allocator hands out blocks of the size asked for: a block of
    [bytes] bytes is an array of [bytes / sizeof(Cluster)] clusters. *)
Definition alloc_sized : Prop :=
  forall h bytes mem h',
    aligned_large_pages_alloc h bytes = (Some mem, h') ->
    Z.of_nat (length mem) = bytes / sizeof_Cluster.


(** ** Properties of [relative_age] and [save] *)

Lemma uint8_range (x : Z) : 0 <= uint8 x < 256.
Proof. unfold uint8. apply Z.mod_pos_bound. lia. Qed.

Lemma uint8_small (x : Z) : 0 <= x < 256 -> uint8 x = x.
Proof. intros H. unfold uint8. apply Z.mod_small. lia. Qed.

Lemma uint8_plus_256 (x : Z) : uint8 (x + 256) = uint8 x.
Proof.
  unfold uint8. change (2 ^ 8) with 256.
  replace (x + 256) with (x + 1 * 256) by lia.
  apply Z.mod_add. lia.
Qed.

(** Truncating a masked value to 8 bits only looks at the low 8 bits of
    both operands. *)
Lemma uint8_land (a m : Z) : uint8 (Z.land a m) = Z.land (uint8 a) (uint8 m).
Proof.
  unfold uint8. rewrite <- !Z.land_ones by lia.
  apply Z.bits_inj'. intros n Hn.
  rewrite !Z.land_spec. destruct (Z.testbit a n), (Z.testbit m n), (Z.testbit (Z.ones 8) n); reflexivity.
Qed.

Lemma relative_age_range (e : TTEntry) (g : Z) : 0 <= relative_age e g < 256.
Proof. apply uint8_range. Qed.

Lemma relative_age_shift (e : TTEntry) (g : Z) :
  relative_age e (g + 256) = relative_age e g.
Proof.
  unfold relative_age. rewrite !uint8_land. f_equal.
  replace (GENERATION_CYCLE + (g + 256) - genBound8 e)
    with (GENERATION_CYCLE + g - genBound8 e + 256) by lia.
  apply uint8_plus_256.
Qed.

(** A property of every integer in [0, n) follows from running its boolean
    form over the whole range. *)
Lemma forall_below (P : Z -> bool) (n : nat) :
  forallb P (map Z.of_nat (seq 0 n)) = true ->
  forall x, 0 <= x < Z.of_nat n -> P x = true.
Proof.
  intros Hall x Hx. rewrite forallb_forall in Hall. apply Hall.
  apply in_map_iff. exists (Z.to_nat x). split; [lia|].
  apply in_seq. lia.
Qed.

(** The generation bits of a byte are a multiple of 8 below 256. *)
Lemma generation_bits_range (gb : Z) :
  0 <= gb < 256 -> 0 <= Z.land gb 248 < 256 /\ Z.land gb 248 mod 8 = 0.
Proof.
  intros Hgb.
  pose (chk := fun x : Z =>
          (0 <=? Z.land x 248) && (Z.land x 248 <? 256) && (Z.land x 248 mod 8 =? 0)).
  assert (Hall : forallb chk (map Z.of_nat (seq 0 256)) = true) by (vm_compute; reflexivity).
  pose proof (forall_below _ 256 Hall gb ltac:(lia)) as H1.
  unfold chk in H1. apply andb_prop in H1 as [H1 H3]. apply andb_prop in H1 as [H1 H2].
  lia.
Qed.

(** With 3 low bits reserved for the bound and the pv flag, a cycle of
    [255 + 8] and the mask [0xF8], the age of an entry is the distance from
    its stored generation bits to the current generation, modulo 256: the
    bound and pv bits of the byte do not disturb it. *)
Lemma relative_age_stamped (e : TTEntry) (g : Z) :
  GENERATION_CYCLE = 263 -> GENERATION_MASK = 248 ->
  0 <= genBound8 e < 256 -> 0 <= g < 256 -> g mod 8 = 0 ->
  relative_age e g = uint8 (g - Z.land (genBound8 e) GENERATION_MASK).
Proof.
  intros Hc Hm Hgb Hg Hg8. unfold relative_age. rewrite Hc, Hm.
  pose (chk := fun gb q : Z =>
          uint8 (Z.land (263 + 8 * q - gb) 248) =? uint8 (8 * q - Z.land gb 248)).
  assert (Hall : forallb (fun gb => forallb (chk gb) (map Z.of_nat (seq 0 32)))
                   (map Z.of_nat (seq 0 256)) = true) by (vm_compute; reflexivity).
  pose proof (forall_below _ 256 Hall (genBound8 e) ltac:(lia)) as H1.
  assert (Hq : 0 <= g / 8 < Z.of_nat 32).
  { split; [apply Z.div_pos; lia | apply Z.div_lt_upper_bound; lia]. }
  pose proof (forall_below _ 32 H1 (g / 8) Hq) as H2.
  unfold chk in H2. apply Z.eqb_eq in H2.
  replace (8 * (g / 8)) with g in H2 by (pose proof (Z.div_mod g 8); lia).
  exact H2.
Qed.

(** Under the same constants, subtracting the whole byte or only its
    generation bits gives the same age. *)
Lemma relative_age_generation_bits (e : TTEntry) (g : Z) :
  GENERATION_CYCLE = 263 -> GENERATION_MASK = 248 ->
  0 <= genBound8 e < 256 -> 0 <= g < 256 -> g mod 8 = 0 ->
  relative_age e g
  = uint8 (Z.land (GENERATION_CYCLE + g - Z.land (genBound8 e) GENERATION_MASK)
                  GENERATION_MASK).
Proof.
  intros Hc Hm Hgb Hg Hg8. unfold relative_age. rewrite Hc, Hm.
  pose (chk := fun gb q : Z =>
          uint8 (Z.land (263 + 8 * q - gb) 248)
          =? uint8 (Z.land (263 + 8 * q - Z.land gb 248) 248)).
  assert (Hall : forallb (fun gb => forallb (chk gb) (map Z.of_nat (seq 0 32)))
                   (map Z.of_nat (seq 0 256)) = true) by (vm_compute; reflexivity).
  pose proof (forall_below _ 256 Hall (genBound8 e) ltac:(lia)) as H1.
  assert (Hq : 0 <= g / 8 < Z.of_nat 32).
  { split; [apply Z.div_pos; lia | apply Z.div_lt_upper_bound; lia]. }
  pose proof (forall_below _ 32 H1 (g / 8) Hq) as H2.
  unfold chk in H2. apply Z.eqb_eq in H2.
  replace (8 * (g / 8)) with g in H2 by (pose proof (Z.div_mod g 8); lia).
  exact H2.
Qed.

(** An entry whose stored generation bits are the current generation has
    age zero. *)
Lemma relative_age_same_generation (e : TTEntry) (g : Z) :
  GENERATION_CYCLE = 263 -> GENERATION_MASK = 248 ->
  0 <= genBound8 e < 256 ->
  Z.land (genBound8 e) GENERATION_MASK = g ->
  relative_age e g = 0.
Proof.
  intros Hc Hm Hgb Hg.
  assert (Hr : 0 <= g < 256 /\ g mod 8 = 0).
  { subst g. rewrite Hm.
    apply generation_bits_range, Hgb. }
  destruct Hr as [Hr Hr8].
  rewrite relative_age_stamped by assumption.
  rewrite Hg. replace (g - g) with 0 by lia. reflexivity.
Qed.

(** The move is the only field the first [if] touches, so both tests of
    [save] read the entry as it was. *)
Lemma overwrites_ignores_move (e : TTEntry) (m k : Z) (pv : bool) (b : Bound) (d g : Z) :
  overwrites (mkTTEntry (key16 e) (depth8 e) (genBound8 e) m (value16 e) (eval16 e))
             k pv b d g
  = overwrites e k pv b d g.
Proof. reflexivity. Qed.

Lemma Bound_eqb_eq (a b : Bound) : Bound_eqb a b = true <-> a = b.
Proof. destruct a, b; simpl; split; intros H; try reflexivity; discriminate. Qed.

(** The test of the second [if] is the four-way disjunction of the
    specification. *)
Lemma overwrites_spec (e : TTEntry) (k : Z) (pv : bool) (b : Bound) (d g : Z) :
  overwrites e k pv b d g = true <-> overwrite_spec e k pv b d g.
Proof.
  unfold overwrites, overwrite_spec, stored_depth, overwrite_margin, pv_bonus, b2z.
  rewrite !orb_true_iff, !negb_true_iff, !Z.eqb_neq, Bound_eqb_eq.
  destruct pv; split; intros H;
    repeat match goal with
           | H : _ \/ _ |- _ => destruct H as [H | H]
           end; lia || (left; left; left; assumption) || (left; left; right; lia)
               || (left; right; lia) || (right; lia) || auto.
Qed.

Lemma save_when_overwriting (e : TTEntry) (k v : Z) (pv : bool) (b : Bound) (d m ev g : Z) :
  overwrites e k pv b d g = true ->
  payload_written (save e k v pv b d m ev g) k v pv b d ev g.
Proof.
  intros H. unfold save, payload_written.
  destruct (replaces_move e k m);
    [ rewrite overwrites_ignores_move | ]; rewrite H; simpl; repeat split; reflexivity.
Qed.

Lemma save_when_not_overwriting (e : TTEntry) (k v : Z) (pv : bool) (b : Bound) (d m ev g : Z) :
  overwrites e k pv b d g = false ->
  payload_kept e (save e k v pv b d m ev g).
Proof.
  intros H. unfold save, payload_kept.
  destruct (replaces_move e k m);
    [ rewrite overwrites_ignores_move | ]; rewrite H; simpl; repeat split; reflexivity.
Qed.

Lemma save_move (e : TTEntry) (k v : Z) (pv : bool) (b : Bound) (d m ev g : Z) :
  move16 (save e k v pv b d m ev g) = if replaces_move e k m then m else move16 e.
Proof.
  unfold save.
  destruct (replaces_move e k m);
    [ rewrite overwrites_ignores_move | ]; destruct (overwrites e k pv b d g); reflexivity.
Qed.

(** C7.  [relative_age] computes
    [(GENERATION_CYCLE + currentGeneration - genBound8) & GENERATION_MASK]
    truncated to 8 bits, and it is cyclic: a current generation one full
    cycle (256) further gives the same age, both when the argument is first
    reduced to 8 bits, as the [uint8_t] parameter does, and on the sum
    itself.  With a cycle of 255 + 8 and the mask 0xF8, and a current
    generation that is a multiple of 8, the byte can be replaced by its
    generation bits in the formula, and the age is the distance from the
    stored to the current generation modulo 256. *)
Theorem relative_age_cyclic (e : TTEntry) (g1 d : Z) :
  (forall g, relative_age e g
             = uint8 (Z.land (GENERATION_CYCLE + g - genBound8 e) GENERATION_MASK))
  /\ relative_age e (uint8 (g1 + d + 256)) = relative_age e (uint8 (g1 + d))
  /\ relative_age e (g1 + d + 256) = relative_age e (g1 + d)
  /\ (GENERATION_CYCLE = 263 -> GENERATION_MASK = 248 ->
      0 <= genBound8 e < 256 -> Z.land (genBound8 e) GENERATION_MASK = g1 ->
      0 <= d < 256 -> d mod 8 = 0 ->
      relative_age e (uint8 (g1 + d))
      = uint8 (Z.land (GENERATION_CYCLE + uint8 (g1 + d)
                       - Z.land (genBound8 e) GENERATION_MASK) GENERATION_MASK)
      /\ relative_age e (uint8 (g1 + d)) = d
      /\ relative_age e (uint8 (g1 + d + 256)) = d).
Proof.
  split; [reflexivity|]. split; [rewrite uint8_plus_256; reflexivity|].
  split; [apply relative_age_shift|].
  intros Hc Hm Hgb Hg Hd Hd8.
  assert (Hg1 : 0 <= g1 < 256 /\ g1 mod 8 = 0).
  { subst g1. rewrite Hm.
    apply generation_bits_range, Hgb. }
  destruct Hg1 as [Hg1 Hg18].
  assert (Hu : 0 <= uint8 (g1 + d) < 256) by apply uint8_range.
  assert (Hu8 : uint8 (g1 + d) mod 8 = 0).
  { unfold uint8. change (2 ^ 8) with (8 * 32).
    rewrite Z.rem_mul_r by lia.
    rewrite Z.mul_comm, Z.mod_add by lia.
    rewrite Z.mod_mod by lia.
    rewrite Z.add_mod by lia. rewrite Hg18, Hd8. reflexivity. }
  assert (Hage : relative_age e (uint8 (g1 + d)) = d).
  { rewrite relative_age_stamped by assumption. rewrite Hg.
    unfold uint8. rewrite Zminus_mod_idemp_l.
    replace (g1 + d - g1) with d by lia. apply Z.mod_small. lia. }
  split; [apply relative_age_generation_bits; assumption|].
  split; [exact Hage|].
  rewrite uint8_plus_256. exact Hage.
Qed.

(** C2.  For every call of [save], the key fragment, the depth, the
    generation/pv/bound byte, the value and the static evaluation are
    overwritten when one of the four conditions holds (new bound EXACT; key
    fragment different from the low 16 bits of the fingerprint; new depth
    plus the pv bonus of 2 above the stored depth by more than the margin,
    which is -4; non-zero relative age), and are all kept when none holds. *)
Theorem save_overwrite_iff (e : TTEntry) (k v : Z) (pv : bool) (b : Bound) (d m ev g : Z) :
  (overwrite_spec e k pv b d g ->
   payload_written (save e k v pv b d m ev g) k v pv b d ev g)
  /\ (~ overwrite_spec e k pv b d g ->
      payload_kept e (save e k v pv b d m ev g)).
Proof.
  split; intros H.
  - apply save_when_overwriting, overwrites_spec, H.
  - apply save_when_not_overwriting.
    destruct (overwrites e k pv b d g) eqn:E; [|reflexivity].
    exfalso. apply H, overwrites_spec, E.
Qed.

(** C5.  For every call of [save], the stored move becomes the caller's move
    when the caller's move is not "none" or the stored key fragment differs
    from the low 16 bits of the fingerprint, and stays what it was otherwise;
    and when the four-way overwrite predicate is false, every field other
    than the move is left as it was. *)
Theorem save_move_retention (e : TTEntry) (k v : Z) (pv : bool) (b : Bound) (d m ev g : Z) :
  ((m <> 0 \/ key16 e <> uint16 k) -> move16 (save e k v pv b d m ev g) = m)
  /\ (~ (m <> 0 \/ key16 e <> uint16 k) ->
      move16 (save e k v pv b d m ev g) = move16 e)
  /\ (~ overwrite_spec e k pv b d g ->
      key16 (save e k v pv b d m ev g) = key16 e
      /\ depth8 (save e k v pv b d m ev g) = depth8 e
      /\ genBound8 (save e k v pv b d m ev g) = genBound8 e
      /\ value16 (save e k v pv b d m ev g) = value16 e
      /\ eval16 (save e k v pv b d m ev g) = eval16 e).
Proof.
  rewrite save_move. unfold replaces_move.
  split; [|split].
  - intros [H | H].
    + apply Z.eqb_neq in H. rewrite H. reflexivity.
    + assert (H' : (uint16 k =? key16 e) = false) by (apply Z.eqb_neq; congruence).
      rewrite H'. simpl. rewrite orb_true_r. reflexivity.
  - intros H.
    destruct (m =? 0) eqn:Em; [|exfalso; apply H; left; apply Z.eqb_neq, Em].
    destruct (uint16 k =? key16 e) eqn:Ek; [reflexivity|].
    exfalso. apply H. right. apply Z.eqb_neq in Ek. congruence.
  - intros H. apply save_when_not_overwriting.
    destruct (overwrites e k pv b d g) eqn:E; [|reflexivity].
    exfalso. apply H, overwrites_spec, E.
Qed.

(** C1, as the code has it.  Take an entry of stored depth 10 whose stored
    generation bits are the current generation (whatever bound it stores)
    and a [save] with the same key fragment, bound LOWER and pv false.  The
    five payload fields are kept when the new depth is at most 6, that is
    when it does not exceed the stored depth minus 4; from depth 7 on, so
    also at depth 9, they are overwritten.  With bound EXACT they are
    overwritten at every depth. *)
Theorem save_same_generation_lower (e : TTEntry) (k v m ev g d : Z) :
  GENERATION_CYCLE = 263 -> GENERATION_MASK = 248 ->
  0 <= genBound8 e < 256 ->
  Z.land (genBound8 e) GENERATION_MASK = g ->
  stored_depth e = 10 ->
  key16 e = uint16 k ->
  (d <= 6 -> payload_kept e (save e k v false BOUND_LOWER d m ev g))
  /\ (6 < d ->
      payload_written (save e k v false BOUND_LOWER d m ev g) k v false BOUND_LOWER d ev g)
  /\ (forall d',
      payload_written (save e k v false BOUND_EXACT d' m ev g) k v false BOUND_EXACT d' ev g).
Proof.
  intros Hc Hm Hgb Hg Hd Hk.
  pose proof (relative_age_same_generation e g Hc Hm Hgb Hg) as Hage.
  unfold stored_depth in Hd.
  split; [|split].
  - intros Hle. apply save_when_not_overwriting.
    unfold overwrites. rewrite Hage, Hk, Z.eqb_refl. simpl.
    rewrite orb_false_r, Z.gtb_ltb. apply Z.ltb_ge. lia.
  - intros Hlt. apply save_when_overwriting.
    unfold overwrites. simpl.
    assert (Hgt : (d - DEPTH_ENTRY_OFFSET + 2 * 0 >? depth8 e - 4) = true).
    { rewrite Z.gtb_ltb. apply Z.ltb_lt. lia. }
    rewrite Hgt, orb_true_r. reflexivity.
  - intros d'. apply save_when_overwriting. reflexivity.
Qed.

(** ** Properties of [probe] *)

Lemma mul_hi64_range (key count : Z) :
  0 <= key < 2 ^ 64 -> 0 < count -> 0 <= mul_hi64 key count < count.
Proof.
  intros Hk Hc. unfold mul_hi64. rewrite Z.shiftr_div_pow2 by lia.
  split.
  - apply Z.div_pos; nia.
  - apply Z.div_lt_upper_bound; nia.
Qed.

Lemma first_entry_in_table (tt : TranspositionTable) (key : Z) :
  wf_table tt -> 0 < clusterCount tt -> 0 <= key < 2 ^ 64 ->
  exists c, table tt !! Z.to_nat (first_entry tt key) = Some c /\ wf_cluster c.
Proof.
  intros (Hlen & _ & Hall) Hpos Hk.
  pose proof (mul_hi64_range key (clusterCount tt) Hk Hpos) as Hr.
  destruct (lookup_lt_is_Some_2 (table tt) (Z.to_nat (first_entry tt key))) as [c Hc].
  { unfold first_entry. lia. }
  exists c. split; [exact Hc|].
  rewrite Forall_forall in Hall. apply Hall. eapply list_elem_of_lookup_2, Hc.
Qed.

(** The first loop returns the first slot whose key fragment matches, with
    the occupancy of that slot, or runs to its end when none matches. *)
Lemma probe_match_scan (tte : list TTEntry) (k16 : Z) (n : nat) :
  forall i : nat, (i + n <= length tte)%nat ->
  (probe_match tte k16 i n = Some None
   /\ forall j e, (i <= j < i + n)%nat -> tte !! j = Some e -> key16 e <> k16)
  \/ (exists j e,
        probe_match tte k16 i n = Some (Some (j, negb (depth8 e =? 0)))
        /\ (i <= j < i + n)%nat
        /\ tte !! j = Some e /\ key16 e = k16
        /\ forall j' e', (i <= j' < j)%nat -> tte !! j' = Some e' -> key16 e' <> k16).
Proof.
  induction n as [|n IH]; intros i Hlen.
  - left. split; [reflexivity|]. intros j e Hj. lia.
  - destruct (lookup_lt_is_Some_2 tte i) as [e He]; [lia|].
    simpl. rewrite He. simpl.
    destruct (key16 e =? k16) eqn:Ek.
    + right. exists i, e. apply Z.eqb_eq in Ek.
      repeat split; try assumption; lia.
    + apply Z.eqb_neq in Ek.
      assert (Hlen' : (S i + n <= length tte)%nat) by lia.
      destruct (IH (S i) Hlen') as [[Hnone Hall] | (j & ej & Hres & Hj & Hlook & Hkey & Hbefore)];
        [left | right].
      * split; [exact Hnone|]. intros j e' Hj Hl.
        destruct (decide (j = i)) as [-> | Hne].
        -- rewrite He in Hl. injection Hl as <-. exact Ek.
        -- apply (Hall j e'); [lia | exact Hl].
      * exists j, ej. repeat split; try assumption; try lia.
        intros j' e' Hj' Hl.
        destruct (decide (j' = i)) as [-> | Hne].
        -- rewrite He in Hl. injection Hl as <-. exact Ek.
        -- apply (Hbefore j' e'); [lia | exact Hl].
Qed.

(** The second loop keeps, round after round, the first slot of least
    replace value among the slots seen so far. *)
Lemma probe_replace_scan (g : Z) (tte : list TTEntry) (n : nat) :
  forall r i : nat, (i + n <= length tte)%nat ->
  first_least g tte i r ->
  exists r', probe_replace g tte r i n = Some r' /\ first_least g tte (i + n) r'.
Proof.
  induction n as [|n IH]; intros r i Hlen Hinv.
  - exists r. split; [reflexivity|]. replace (i + 0)%nat with i by lia. exact Hinv.
  - destruct Hinv as (Hri & er & Her & Hmin & Hfirst).
    destruct (lookup_lt_is_Some_2 tte i) as [e He]; [lia|].
    simpl. rewrite Her. simpl. rewrite He. simpl.
    assert (Hlen' : (S i + n <= length tte)%nat) by lia.
    assert (Hstep : first_least g tte (S i)
                      (if replace_value g er >? replace_value g e then i else r)).
    { destruct (replace_value g er >? replace_value g e) eqn:Ecmp.
      - rewrite Z.gtb_ltb in Ecmp. apply Z.ltb_lt in Ecmp.
        split; [lia|]. exists e. split; [exact He|]. split.
        + intros j ej Hj Hl. destruct (decide (j = i)) as [-> | Hne].
          * rewrite He in Hl. injection Hl as <-. lia.
          * specialize (Hmin j ej ltac:(lia) Hl). lia.
        + intros j ej Hj Hl. specialize (Hmin j ej ltac:(lia) Hl). lia.
      - rewrite Z.gtb_ltb in Ecmp. apply Z.ltb_ge in Ecmp.
        split; [lia|]. exists er. split; [exact Her|]. split.
        + intros j ej Hj Hl. destruct (decide (j = i)) as [-> | Hne].
          * rewrite He in Hl. injection Hl as <-. lia.
          * apply (Hmin j ej); [lia | exact Hl].
        + exact Hfirst. }
    destruct (IH _ (S i) Hlen' Hstep) as (r' & Hres & Hinv').
    exists r'. split; [exact Hres|].
    replace (i + S n)%nat with (S i + n)%nat by lia. exact Hinv'.
Qed.

Lemma first_least_initial (g : Z) (tte : list TTEntry) :
  (0 < length tte)%nat -> first_least g tte 1 0.
Proof.
  intros Hlen. destruct (lookup_lt_is_Some_2 tte 0 Hlen) as [e0 He0].
  split; [lia|]. exists e0. split; [exact He0|]. split.
  - intros j ej Hj Hl. replace j with 0%nat in Hl by lia.
    rewrite He0 in Hl. injection Hl as <-. lia.
  - intros j ej Hj. lia.
Qed.

(** What [probe] returns, by cases on whether a key fragment matches. *)
Lemma probe_cases (tt : TranspositionTable) (key : Z) :
  wf_table tt -> 0 < clusterCount tt -> 0 <= key < 2 ^ 64 ->
  exists c,
    table tt !! Z.to_nat (first_entry tt key) = Some c
    /\ ((exists i e, entry c !! i = Some e /\ key16 e = uint16 key) ->
        exists i e,
          probe tt key = Some ((first_entry tt key, i), negb (depth8 e =? 0))
          /\ entry c !! i = Some e
          /\ key16 e = uint16 key
          /\ forall j ej, (j < i)%nat -> entry c !! j = Some ej -> key16 ej <> uint16 key)
    /\ ((forall i e, entry c !! i = Some e -> key16 e <> uint16 key) ->
        exists r,
          probe tt key = Some ((first_entry tt key, r), false)
          /\ first_least (generation8 tt) (entry c) ClusterSize r).
Proof.
  intros Hwf Hpos Hkey.
  destruct (first_entry_in_table tt key Hwf Hpos Hkey) as (c & Hc & Hlen & Hsize).
  exists c. split; [exact Hc|].
  assert (Hscan := probe_match_scan (entry c) (uint16 key) ClusterSize 0 ltac:(lia)).
  unfold probe. rewrite Hc. simpl.
  split.
  - intros (i & e & Hi & He).
    destruct Hscan as [[_ Hnone] | (j & ej & Hres & Hj & Hlook & Hk & Hbefore)].
    + exfalso. apply (Hnone i e); [|exact Hi|exact He].
      apply lookup_lt_Some in Hi. lia.
    + exists j, ej. rewrite Hres. simpl.
      repeat split; try assumption.
      intros j' e' Hj'. apply Hbefore. lia.
  - intros Hno.
    destruct Hscan as [[Hnone _] | (j & ej & _ & _ & Hlook & Hk & _)].
    + rewrite Hnone. simpl.
      destruct (probe_replace_scan (generation8 tt) (entry c) (ClusterSize - 1) 0 1)
        as (r & Hres & Hleast).
      { lia. }
      { apply first_least_initial. lia. }
      exists r. rewrite Hres. simpl. split; [reflexivity|].
      replace (1 + (ClusterSize - 1))%nat with ClusterSize in Hleast by lia.
      exact Hleast.
    + exfalso. apply (Hno j ej Hlook Hk).
Qed.

(** On a well-formed table [probe] stays inside its cluster and returns. *)
Lemma probe_returns (tt : TranspositionTable) (key : Z) :
  wf_table tt -> 0 < clusterCount tt -> 0 <= key < 2 ^ 64 ->
  exists ref found, probe tt key = Some (ref, found).
Proof.
  intros Hwf Hpos Hk.
  destruct (probe_cases tt key Hwf Hpos Hk) as (c & Hc & Hhit & Hmiss).
  destruct (existsb (fun e => key16 e =? uint16 key) (entry c)) eqn:Ex.
  - apply existsb_exists in Ex as (e & Hin & He).
    apply list_elem_of_In, list_elem_of_lookup in Hin as [i Hi].
    destruct Hhit as (i' & e' & Hres & _); [|eauto].
    exists i, e. split; [exact Hi | apply Z.eqb_eq, He].
  - destruct Hmiss as (r & Hres & _); [|eauto].
    intros i e Hi Hk'.
    assert (Hex : existsb (fun e => key16 e =? uint16 key) (entry c) = true).
    { apply existsb_exists. exists e. split; [|apply Z.eqb_eq, Hk'].
      apply list_elem_of_In. eapply list_elem_of_lookup_2, Hi. }
    congruence.
Qed.

(** C3.  For every fingerprint, on a table that holds [clusterCount > 0]
    clusters of [ClusterSize] entries each, [probe] looks at the owning
    cluster.  If some entry matches the low 16 bits of the fingerprint, it
    returns the first such entry, and [found] is true exactly when the depth
    field of that entry is non-zero.  If none matches, [found] is false and
    the entry returned has the least value of
    [depth8 - 2 * relative_age(generation8)] in the cluster and is the first
    entry to have it: the first entry is the initial candidate and a later
    one replaces it only when strictly less valuable. *)
Theorem probe_contract (tt : TranspositionTable) (key : Z) :
  wf_table tt -> 0 < clusterCount tt -> 0 <= key < 2 ^ 64 ->
  exists c,
    table tt !! Z.to_nat (first_entry tt key) = Some c
    /\ ((exists i e, entry c !! i = Some e /\ key16 e = uint16 key) ->
        exists i e,
          probe tt key = Some ((first_entry tt key, i), negb (depth8 e =? 0))
          /\ entry c !! i = Some e
          /\ key16 e = uint16 key
          /\ forall j ej, (j < i)%nat -> entry c !! j = Some ej -> key16 ej <> uint16 key)
    /\ ((forall i e, entry c !! i = Some e -> key16 e <> uint16 key) ->
        exists r er,
          probe tt key = Some ((first_entry tt key, r), false)
          /\ (r < ClusterSize)%nat
          /\ entry c !! r = Some er
          /\ (forall j ej, entry c !! j = Some ej ->
                depth8 er - 2 * relative_age er (generation8 tt)
                <= depth8 ej - 2 * relative_age ej (generation8 tt))
          /\ (forall j ej, (j < r)%nat -> entry c !! j = Some ej ->
                depth8 er - 2 * relative_age er (generation8 tt)
                < depth8 ej - 2 * relative_age ej (generation8 tt))).
Proof.
  intros Hwf Hpos Hk.
  destruct (first_entry_in_table tt key Hwf Hpos Hk) as (c0 & Hc0 & Hsize & _).
  destruct (probe_cases tt key Hwf Hpos Hk) as (c & Hc & Hhit & Hmiss).
  assert (c0 = c) by congruence. subst c0.
  exists c. split; [exact Hc|]. split; [exact Hhit|].
  intros Hno. destruct (Hmiss Hno) as (r & Hres & Hr & er & Her & Hmin & Hfirst).
  exists r, er. split; [exact Hres|]. split; [exact Hr|]. split; [exact Her|].
  unfold replace_value in Hmin, Hfirst. split.
  - intros j ej Hj.
    assert (Hlt : (j < ClusterSize)%nat) by (apply lookup_lt_Some in Hj; lia).
    specialize (Hmin j ej Hlt Hj). lia.
  - intros j ej Hlt Hj. specialize (Hfirst j ej Hlt Hj). lia.
Qed.

(** ** Properties of [hashfull] *)

Lemma fresh_entries_cons (g : Z) (e : TTEntry) (es : list TTEntry) :
  fresh_entries g (e :: es) = b2z (is_fresh g e) + fresh_entries g es.
Proof.
  unfold fresh_entries. rewrite filter_cons.
  destruct (decide (is_fresh g e = true)) as [H | H].
  - rewrite H. simpl. lia.
  - apply not_true_is_false in H. rewrite H. simpl. lia.
Qed.

Lemma fresh_entries_bounds (g : Z) (es : list TTEntry) :
  0 <= fresh_entries g es <= Z.of_nat (length es).
Proof.
  unfold fresh_entries. pose proof (length_filter (fun e => is_fresh g e = true) es). lia.
Qed.

Lemma fresh_count_nil (g : Z) : fresh_count g [] = 0.
Proof. reflexivity. Qed.

Lemma fresh_count_cons (g : Z) (c : Cluster) (cs : list Cluster) :
  fresh_count g (c :: cs) = fresh_entries g (entry c) + fresh_count g cs.
Proof.
  unfold fresh_count, fresh_entries. simpl.
  rewrite filter_app, length_app. lia.
Qed.

Lemma fresh_count_bounds (g : Z) (cs : list Cluster) :
  Forall wf_cluster cs ->
  0 <= fresh_count g cs <= Z.of_nat (length cs) * Z.of_nat ClusterSize.
Proof.
  induction 1 as [|c cs [Hc _] _ IH].
  - rewrite fresh_count_nil. simpl. lia.
  - rewrite fresh_count_cons. pose proof (fresh_entries_bounds g (entry c)) as Hb.
    rewrite Hc in Hb. simpl length. nia.
Qed.

(** The inner loop adds the fresh entries among the next [n] slots. *)
Lemma hashfull_entries_count (g : Z) (c : Cluster) (n : nat) :
  forall (j : nat) (cnt : Z), (j + n <= length (entry c))%nat ->
  hashfull_entries g c j n cnt
  = Some (cnt + fresh_entries g (take n (drop j (entry c)))).
Proof.
  induction n as [|n IH]; intros j cnt Hlen.
  - simpl. unfold fresh_entries. simpl. f_equal. lia.
  - destruct (lookup_lt_is_Some_2 (entry c) j) as [e He]; [lia|].
    simpl. rewrite He. simpl. rewrite IH by lia.
    rewrite (drop_S _ _ _ He). simpl take. rewrite fresh_entries_cons.
    f_equal. lia.
Qed.

(** The outer loop adds the fresh entries of the next [n] clusters. *)
Lemma hashfull_clusters_count (tt : TranspositionTable) (n : nat) :
  Forall wf_cluster (table tt) ->
  forall (i : nat) (cnt : Z), (i + n <= length (table tt))%nat ->
  hashfull_clusters tt i n cnt
  = Some (cnt + fresh_count (generation8 tt) (take n (drop i (table tt)))).
Proof.
  intros Hall. induction n as [|n IH]; intros i cnt Hlen.
  - simpl. rewrite fresh_count_nil. f_equal. lia.
  - destruct (lookup_lt_is_Some_2 (table tt) i) as [c Hc]; [lia|].
    assert (Hwf : wf_cluster c).
    { rewrite Forall_forall in Hall. apply Hall. eapply list_elem_of_lookup_2, Hc. }
    destruct Hwf as [Hsize _].
    simpl. rewrite Hc. simpl.
    rewrite hashfull_entries_count by lia. simpl.
    rewrite IH by lia.
    rewrite (drop_S _ _ _ Hc). simpl take. rewrite fresh_count_cons.
    rewrite drop_0, <- Hsize, firstn_all. f_equal. lia.
Qed.

(** With 1000 clusters in the table, the two loops count the fresh entries
    of the first 1000 clusters. *)
Lemma hashfull_counts (tt : TranspositionTable) :
  (1000 <= length (table tt))%nat ->
  Forall wf_cluster (table tt) ->
  hashfull tt = Some (hashfull_spec tt)
  /\ 0 <= fresh_count (generation8 tt) (take 1000 (table tt))
     <= 1000 * Z.of_nat ClusterSize
  /\ 0 < Z.of_nat ClusterSize.
Proof.
  intros Hlen Hall.
  assert (Hpos : 0 < Z.of_nat ClusterSize).
  { destruct (table tt) as [|c cs]; [simpl in Hlen; lia|].
    apply Forall_cons in Hall as [[_ Hc] _]. lia. }
  assert (Hb := fresh_count_bounds (generation8 tt) (take 1000 (table tt))
                  ltac:(apply Forall_take; exact Hall)).
  rewrite length_take in Hb.
  replace (1000 `min` length (table tt))%nat with 1000%nat in Hb by lia.
  split; [|split; [lia | exact Hpos]].
  unfold hashfull, hashfull_spec.
  rewrite (hashfull_clusters_count tt 1000 Hall 0 0) by (simpl; lia).
  simpl. rewrite drop_0. f_equal.
  apply Z.quot_div_nonneg; lia.
Qed.

(** The test of [hashfull] on an entry, spelled out. *)
Lemma is_fresh_spelled (g : Z) (e : TTEntry) :
  is_fresh g e = true <-> depth8 e <> 0 /\ Z.land (genBound8 e) GENERATION_MASK = g.
Proof.
  unfold is_fresh. rewrite andb_true_iff, negb_true_iff, Z.eqb_neq, Z.eqb_eq. tauto.
Qed.

(** C4, as the code has it.  On a table of at least 1000 clusters,
    [hashfull] inspects exactly the first 1000 clusters, that is
    [1000 * ClusterSize] entries, counts the entries among them whose depth
    field is non-zero and whose generation bits
    [genBound8 & GENERATION_MASK] equal the current generation, and returns
    that count divided by the cluster size, a value between 0 and 1000. *)
Theorem hashfull_contract (tt : TranspositionTable) :
  (1000 <= length (table tt))%nat ->
  Forall wf_cluster (table tt) ->
  exists cnt,
    cnt = Z.of_nat
            (length
               (filter (fun e => depth8 e <> 0
                                 /\ Z.land (genBound8 e) GENERATION_MASK = generation8 tt)
                       (concat (map entry (take 1000 (table tt))))))
    /\ hashfull tt = Some (cnt / Z.of_nat ClusterSize)
    /\ length (take 1000 (table tt)) = 1000%nat
    /\ length (concat (map entry (take 1000 (table tt)))) = (1000 * ClusterSize)%nat
    /\ 0 <= cnt / Z.of_nat ClusterSize <= 1000.
Proof.
  intros Hlen Hall.
  destruct (hashfull_counts tt Hlen Hall) as (Hrun & Hb & Hpos).
  assert (Hcnt : fresh_count (generation8 tt) (take 1000 (table tt))
                 = Z.of_nat
                     (length
                        (filter (fun e => depth8 e <> 0
                                          /\ Z.land (genBound8 e) GENERATION_MASK
                                             = generation8 tt)
                                (concat (map entry (take 1000 (table tt))))))).
  { unfold fresh_count. do 2 f_equal. apply list_filter_iff.
    intros e. apply is_fresh_spelled. }
  eexists. split; [reflexivity|]. rewrite <- Hcnt.
  split; [exact Hrun|].
  assert (Htake : length (take 1000 (table tt)) = 1000%nat) by (rewrite length_take; lia).
  split; [exact Htake|].
  split.
  { assert (Hgen : forall cs : list Cluster,
               Forall wf_cluster cs ->
               length (concat (map entry cs)) = (length cs * ClusterSize)%nat).
    { induction 1 as [|c cs [Hc _] _ IH]; [reflexivity|].
      simpl. rewrite length_app, IH, Hc. reflexivity. }
    rewrite Hgen by (apply Forall_take; exact Hall). rewrite Htake. reflexivity. }
  split.
  - apply Z.div_pos; lia.
  - apply Z.div_le_upper_bound; [lia|]. nia.
Qed.

(** ** Properties of [clear] *)

Lemma size_t_small (x : Z) : 0 <= x < 2 ^ 64 -> size_t x = x.
Proof. intros H. unfold size_t. apply Z.mod_small. exact H. Qed.

(** No wrap-around happens in the arithmetic of a task: thread [i] gets the
    clusters from [stride * i] on, [stride] of them, and the last thread
    the remainder of the division on top. *)
Lemma clear_stride_eq (count threadCount i : Z) :
  0 < threadCount < 2 ^ 64 -> 0 <= count < 2 ^ 64 -> 0 <= i < threadCount ->
  clear_stride count threadCount i
  = (count / threadCount * i,
     if i =? threadCount - 1
     then count / threadCount + count mod threadCount
     else count / threadCount).
Proof.
  intros HT Hc Hi. unfold clear_stride.
  pose proof (Z.div_mod count threadCount ltac:(lia)) as Hdm.
  pose proof (Z.mod_pos_bound count threadCount ltac:(lia)) as Hmod.
  assert (Hs : 0 <= count / threadCount) by (apply Z.div_pos; lia).
  assert (Hstart : 0 <= count / threadCount * i <= count) by nia.
  rewrite (size_t_small (count / threadCount * i)) by lia.
  rewrite (size_t_small (i + 1)) by lia.
  f_equal.
  destruct (i =? threadCount - 1) eqn:Elast.
  - apply Z.eqb_eq in Elast.
    replace (i + 1 =? threadCount) with true by (symmetry; apply Z.eqb_eq; lia).
    simpl. rewrite size_t_small by lia. subst i. nia.
  - apply Z.eqb_neq in Elast.
    replace (i + 1 =? threadCount) with false by (symmetry; apply Z.eqb_neq; lia).
    reflexivity.
Qed.

(** Every task stays inside the table. *)
Lemma clear_stride_inside (count threadCount i : Z) :
  0 < threadCount < 2 ^ 64 -> 0 <= count < 2 ^ 64 -> 0 <= i < threadCount ->
  0 <= fst (clear_stride count threadCount i)
  /\ 0 <= snd (clear_stride count threadCount i)
  /\ fst (clear_stride count threadCount i) + snd (clear_stride count threadCount i)
     <= count.
Proof.
  intros HT Hc Hi. rewrite clear_stride_eq by assumption. simpl.
  pose proof (Z.div_mod count threadCount ltac:(lia)) as Hdm.
  pose proof (Z.mod_pos_bound count threadCount ltac:(lia)) as Hmod.
  assert (Hs : 0 <= count / threadCount) by (apply Z.div_pos; lia).
  destruct (i =? threadCount - 1) eqn:Elast.
  - apply Z.eqb_eq in Elast. subst i. nia.
  - apply Z.eqb_neq in Elast. nia.
Qed.

(** The strides cover the cluster range: every cluster lies in one. *)
Lemma stride_cover (count threadCount c : Z) :
  0 < threadCount < 2 ^ 64 -> 0 <= count < 2 ^ 64 -> 0 <= c < count ->
  exists i, 0 <= i < threadCount /\ in_stride count threadCount i c.
Proof.
  intros HT Hc Hin.
  pose proof (Z.div_mod count threadCount ltac:(lia)) as Hdm.
  pose proof (Z.mod_pos_bound count threadCount ltac:(lia)) as Hmod.
  assert (Hs : 0 <= count / threadCount) by (apply Z.div_pos; lia).
  destruct (Z_lt_ge_dec c (count / threadCount * (threadCount - 1))) as [Hlow | Hhigh].
  - (* below the last stride; the stride is not empty *)
    assert (Hpos : 0 < count / threadCount) by nia.
    pose proof (Z.div_mod c (count / threadCount) ltac:(lia)) as Hq.
    pose proof (Z.mod_pos_bound c (count / threadCount) Hpos) as Hr.
    assert (Hq0 : 0 <= c / (count / threadCount)) by (apply Z.div_pos; lia).
    assert (Hq1 : c / (count / threadCount) < threadCount - 1) by nia.
    exists (c / (count / threadCount)). split; [lia|].
    unfold in_stride. rewrite clear_stride_eq by lia. simpl.
    replace (c / (count / threadCount) =? threadCount - 1) with false
      by (symmetry; apply Z.eqb_neq; lia).
    nia.
  - exists (threadCount - 1). split; [lia|].
    unfold in_stride. rewrite clear_stride_eq by lia. simpl.
    rewrite Z.eqb_refl. nia.
Qed.

(** The strides are pairwise disjoint: a cluster lies in one stride only. *)
Lemma stride_disjoint (count threadCount c i j : Z) :
  0 < threadCount < 2 ^ 64 -> 0 <= count < 2 ^ 64 ->
  0 <= i < threadCount -> 0 <= j < threadCount ->
  in_stride count threadCount i c -> in_stride count threadCount j c ->
  i = j.
Proof.
  intros HT Hc Hi Hj. unfold in_stride.
  rewrite !clear_stride_eq by assumption. simpl.
  assert (Hs : 0 <= count / threadCount) by (apply Z.div_pos; lia).
  destruct (i =? threadCount - 1) eqn:Ei; destruct (j =? threadCount - 1) eqn:Ej;
    rewrite ?Z.eqb_eq, ?Z.eqb_neq in *; intros H1 H2; nia.
Qed.

(** A [memset] inside the table succeeds; it zeroes the clusters of its
    range and leaves the others as they were. *)
Lemma memset_clusters_inside (t : list Cluster) (start len : Z) :
  0 <= start -> 0 <= len -> start + len <= Z.of_nat (length t) ->
  exists t',
    memset_clusters t start len = Some t'
    /\ length t' = length t
    /\ forall c : nat,
        (start <= Z.of_nat c < start + len -> t' !! c = Some zero_cluster)
        /\ (~ start <= Z.of_nat c < start + len -> t' !! c = t !! c).
Proof.
  intros Hs Hl Hin. unfold memset_clusters.
  replace (0 <=? start) with true by (symmetry; apply Z.leb_le; lia).
  replace (0 <=? len) with true by (symmetry; apply Z.leb_le; lia).
  replace (start + len <=? Z.of_nat (length t)) with true
    by (symmetry; apply Z.leb_le; lia).
  simpl. eexists. split; [reflexivity|].
  assert (Htake : length (take (Z.to_nat start) t) = Z.to_nat start).
  { rewrite length_take. lia. }
  split.
  - rewrite !length_app, Htake, length_replicate, length_drop. lia.
  - intros c. split; intros Hc.
    + rewrite lookup_app_r by lia. rewrite Htake.
      rewrite lookup_app_l by (rewrite length_replicate; lia).
      apply lookup_replicate_2. lia.
    + destruct (Z_lt_ge_dec (Z.of_nat c) start) as [Hlow | Hhigh].
      * rewrite lookup_app_l by lia. rewrite lookup_take.
        destruct (decide (c < Z.to_nat start)%nat); [reflexivity | lia].
      * rewrite lookup_app_r by lia. rewrite Htake.
        rewrite lookup_app_r by (rewrite length_replicate; lia).
        rewrite length_replicate, lookup_drop. f_equal. lia.
Qed.

(** However the tasks are ordered, they all succeed; a cluster that lies in
    the stride of one of them ends up zero, and so does a cluster that was
    zero before. *)
Lemma run_tasks_zero (threadCount : Z) (order : list Z) :
  0 < threadCount < 2 ^ 64 ->
  Forall (fun i => 0 <= i < threadCount) order ->
  forall tt : TranspositionTable,
    0 <= clusterCount tt < 2 ^ 64 ->
    Z.of_nat (length (table tt)) = clusterCount tt ->
    exists t',
      run_tasks threadCount tt order
      = Some (mkTable (clusterCount tt) t' (generation8 tt))
      /\ length t' = length (table tt)
      /\ forall c : nat,
          (exists i, In i order /\ in_stride (clusterCount tt) threadCount i (Z.of_nat c))
          \/ table tt !! c = Some zero_cluster ->
          (c < length (table tt))%nat ->
          t' !! c = Some zero_cluster.
Proof.
  intros HT Horder. induction Horder as [|i rest Hi _ IH]; intros tt Hcount Hlen.
  - exists (table tt). simpl. split; [destruct tt; reflexivity|]. split; [reflexivity|].
    intros c [(i & [] & _) | Hz] _. exact Hz.
  - pose proof (clear_stride_inside (clusterCount tt) threadCount i HT Hcount Hi)
      as (Hs & Hl & Hin).
    simpl. unfold clear_task.
    destruct (clear_stride (clusterCount tt) threadCount i) as [start len] eqn:Estride.
    simpl in Hs, Hl, Hin.
    destruct (memset_clusters_inside (table tt) start len Hs Hl ltac:(lia))
      as (t1 & Hset & Hlen1 & Hlook).
    rewrite Hset. simpl.
    destruct (IH (mkTable (clusterCount tt) t1 (generation8 tt)))
      as (t' & Hrun & Hlen' & Hzero); simpl; [exact Hcount | lia |].
    simpl in Hrun, Hlen', Hzero.
    exists t'. split; [exact Hrun|]. split; [lia|].
    intros c Hc Hclt. apply Hzero; [|lia].
    destruct (Hlook c) as [Hin_range Hout_range].
    destruct (Z_le_gt_dec start (Z.of_nat c)) as [H1 | H1];
      [destruct (Z_lt_ge_dec (Z.of_nat c) (start + len)) as [H2 | H2] |].
    + right. apply Hin_range. lia.
    + destruct Hc as [(j & [<- | Hj] & Hstr) | Hz].
      * unfold in_stride in Hstr. rewrite Estride in Hstr. simpl in Hstr. lia.
      * left. exists j. split; assumption.
      * right. rewrite Hout_range by lia. exact Hz.
    + destruct Hc as [(j & [<- | Hj] & Hstr) | Hz].
      * unfold in_stride in Hstr. rewrite Estride in Hstr. simpl in Hstr. lia.
      * left. exists j. split; assumption.
      * right. rewrite Hout_range by lia. exact Hz.
Qed.

Lemma thread_ids_in (threadCount i : Z) :
  In i (thread_ids threadCount) <-> 0 <= i < threadCount.
Proof.
  unfold thread_ids. rewrite in_map_iff. split.
  - intros (n & <- & Hn). apply in_seq in Hn. lia.
  - intros Hi. exists (Z.to_nat i). split; [lia|]. apply in_seq. lia.
Qed.

(** When every thread has run its task, in whatever order, the table is
    zero from end to end. *)
Lemma run_tasks_all (threadCount : Z) (order : list Z) (tt : TranspositionTable) :
  0 < threadCount < 2 ^ 64 ->
  Permutation order (thread_ids threadCount) ->
  0 <= clusterCount tt < 2 ^ 64 ->
  Z.of_nat (length (table tt)) = clusterCount tt ->
  run_tasks threadCount tt order = Some (zero_table tt).
Proof.
  intros HT Hperm Hcount Hlen.
  assert (Horder : Forall (fun i => 0 <= i < threadCount) order).
  { apply List.Forall_forall. intros i Hi. apply thread_ids_in.
    eapply Permutation_in; eassumption. }
  destruct (run_tasks_zero threadCount order HT Horder tt Hcount Hlen)
    as (t' & Hrun & Hlen' & Hzero).
  rewrite Hrun. unfold zero_table. do 2 f_equal.
  apply list_eq. intros c.
  destruct (decide (c < length (table tt))%nat) as [Hc | Hc].
  - rewrite lookup_replicate_2 by lia. apply Hzero; [|exact Hc]. left.
    destruct (stride_cover (clusterCount tt) threadCount (Z.of_nat c) HT Hcount ltac:(lia))
      as (i & Hi & Hstr).
    exists i. split; [|exact Hstr].
    eapply Permutation_in; [symmetry; exact Hperm|]. apply thread_ids_in. exact Hi.
  - rewrite !lookup_ge_None_2; [reflexivity | rewrite length_replicate; lia | lia].
Qed.

Lemma zero_cluster_entries (j : nat) (e : TTEntry) :
  entry zero_cluster !! j = Some e -> e = zero_entry.
Proof. unfold zero_cluster. simpl. intros H. apply lookup_replicate in H. tauto. Qed.

Lemma zero_table_clusters (tt : TranspositionTable) (c : nat) (cl : Cluster) :
  table (zero_table tt) !! c = Some cl -> cl = zero_cluster.
Proof. unfold zero_table. simpl. intros H. apply lookup_replicate in H. tauto. Qed.

Lemma zero_table_wf (tt : TranspositionTable) :
  0 <= clusterCount tt < 2 ^ 64 -> (0 < ClusterSize)%nat -> wf_table (zero_table tt).
Proof.
  intros Hc Hs. unfold wf_table, zero_table. simpl.
  rewrite length_replicate. split; [lia|]. split; [lia|].
  apply Forall_replicate. split; [|exact Hs].
  unfold zero_cluster. simpl. apply length_replicate.
Qed.

(** On a table that is zero from end to end, [probe] finds nothing. *)
Lemma probe_zero_table (tt : TranspositionTable) (key : Z) :
  0 < clusterCount tt < 2 ^ 64 -> (0 < ClusterSize)%nat -> 0 <= key < 2 ^ 64 ->
  exists ref, probe (zero_table tt) key = Some (ref, false).
Proof.
  intros Hc Hs Hk.
  destruct (probe_cases (zero_table tt) key) as (c & Hlook & Hhit & Hmiss);
    [apply zero_table_wf; [lia | exact Hs] | simpl; lia | exact Hk |].
  apply zero_table_clusters in Hlook. subst c.
  destruct (Z.eq_dec (uint16 key) 0) as [Hz | Hnz].
  - destruct Hhit as (i & e & Hres & Hi & _).
    { exists 0%nat, zero_entry. split; [|simpl; lia].
      unfold zero_cluster. simpl. apply lookup_replicate_2. exact Hs. }
    apply zero_cluster_entries in Hi. subst e. simpl in Hres.
    eexists. exact Hres.
  - destruct Hmiss as (r & Hres & _).
    { intros i e Hi. apply zero_cluster_entries in Hi. subst e. simpl. lia. }
    eexists. exact Hres.
Qed.

(** ** Properties of [resize] *)

Lemma resize_count_range (mbSize : Z) :
  0 < sizeof_Cluster -> 0 <= resize_count mbSize < 2 ^ 64.
Proof.
  intros Hs. unfold resize_count.
  pose proof (Z.mod_pos_bound (size_t (mbSize * 1024) * 1024) (2 ^ 64) ltac:(lia)) as Hb.
  fold (size_t (size_t (mbSize * 1024) * 1024)) in Hb.
  split.
  - apply Z.div_pos; lia.
  - apply Z.div_lt_upper_bound; nia.
Qed.

(** The byte count handed to the allocator does not wrap around. *)
Lemma resize_bytes (mbSize : Z) :
  0 < sizeof_Cluster ->
  size_t (resize_count mbSize * sizeof_Cluster) / sizeof_Cluster = resize_count mbSize.
Proof.
  intros Hs.
  pose proof (Z.mod_pos_bound (size_t (mbSize * 1024) * 1024) (2 ^ 64) ltac:(lia)) as Hb.
  fold (size_t (size_t (mbSize * 1024) * 1024)) in Hb.
  assert (Hle : 0 <= resize_count mbSize * sizeof_Cluster
                <= size_t (size_t (mbSize * 1024) * 1024)).
  { unfold resize_count.
    pose proof (Z.div_mod (size_t (size_t (mbSize * 1024) * 1024)) sizeof_Cluster ltac:(lia)).
    pose proof (Z.mod_pos_bound (size_t (size_t (mbSize * 1024) * 1024)) sizeof_Cluster Hs).
    assert (0 <= size_t (size_t (mbSize * 1024) * 1024) / sizeof_Cluster)
      by (apply Z.div_pos; lia).
    nia. }
  rewrite size_t_small by lia. apply Z.div_mul. lia.
Qed.

Lemma resize_count_exact (mbSize : Z) :
  0 <= mbSize -> mbSize * 1024 * 1024 < 2 ^ 64 ->
  resize_count mbSize = mbSize * 1024 * 1024 / sizeof_Cluster.
Proof.
  intros H0 Hlt. unfold resize_count.
  rewrite (size_t_small (mbSize * 1024)) by lia.
  rewrite size_t_small by lia. reflexivity.
Qed.

(** With an empty pool no task runs and [clear] leaves the table alone. *)
Lemma clear_no_threads (tt : TranspositionTable) (threads : ThreadPool) :
  num_threads threads <= 0 -> clear tt threads = Some tt.
Proof.
  intros H. unfold clear, thread_ids.
  replace (Z.to_nat (num_threads threads)) with 0%nat by lia. reflexivity.
Qed.

Lemma clear_zero (tt : TranspositionTable) (threads : ThreadPool) :
  0 < num_threads threads < 2 ^ 64 ->
  0 <= clusterCount tt < 2 ^ 64 ->
  Z.of_nat (length (table tt)) = clusterCount tt ->
  clear tt threads = Some (zero_table tt).
Proof.
  intros HT Hc Hlen. unfold clear. apply run_tasks_all; try assumption.
  apply Permutation_refl.
Qed.

(** A successful allocation makes [resize] return, with the new count. *)
Lemma resize_returns (tt : TranspositionTable) (h : Heap) (mbSize : Z)
      (threads : ThreadPool) (mem : list Cluster) (h2 : Heap) :
  alloc_sized -> 0 < sizeof_Cluster -> 0 <= num_threads threads < 2 ^ 64 ->
  aligned_large_pages_alloc (aligned_large_pages_free h (table tt))
    (size_t (resize_count mbSize * sizeof_Cluster)) = (Some mem, h2) ->
  resize tt h mbSize threads
  = Returned (if num_threads threads =? 0
              then mkTable (resize_count mbSize) mem (generation8 tt)
              else zero_table (mkTable (resize_count mbSize) mem (generation8 tt))) h2.
Proof.
  intros Hsized Hs HT Halloc. unfold resize. rewrite Halloc.
  pose proof (Hsized _ _ _ _ Halloc) as Hlen. rewrite resize_bytes in Hlen by exact Hs.
  destruct (num_threads threads =? 0) eqn:E0.
  - apply Z.eqb_eq in E0. rewrite clear_no_threads by lia. reflexivity.
  - apply Z.eqb_neq in E0. rewrite clear_zero; simpl; try lia; [reflexivity|].
    apply resize_count_range, Hs.
Qed.

(** C6.  With at least one worker thread, [clear] splits the cluster range
    [0, clusterCount) into one contiguous stride per thread: thread [i]
    starts at [stride * i] for [stride = clusterCount / threadCount] and
    takes [stride] clusters, the last thread the remainder as well.  Every
    cluster lies in the stride of exactly one thread.  Hence, in whatever
    order the threads run, every entry is zero after [clear], and after
    [resize], which ends with it; and [probe] on that table reports
    [found = false] for every fingerprint. *)
Theorem clear_partition_zero (tt : TranspositionTable) (threads : ThreadPool)
        (order : list Z) :
  0 < num_threads threads < 2 ^ 64 ->
  0 <= clusterCount tt < 2 ^ 64 ->
  Z.of_nat (length (table tt)) = clusterCount tt ->
  Permutation order (thread_ids (num_threads threads)) ->
  (forall i, 0 <= i < num_threads threads ->
     clear_stride (clusterCount tt) (num_threads threads) i
     = (clusterCount tt / num_threads threads * i,
        if i =? num_threads threads - 1
        then clusterCount tt / num_threads threads
             + clusterCount tt mod num_threads threads
        else clusterCount tt / num_threads threads))
  /\ (forall c, 0 <= c < clusterCount tt ->
        exists i, 0 <= i < num_threads threads
                  /\ in_stride (clusterCount tt) (num_threads threads) i c
                  /\ forall j, 0 <= j < num_threads threads ->
                               in_stride (clusterCount tt) (num_threads threads) j c ->
                               j = i)
  /\ run_tasks (num_threads threads) tt order = Some (zero_table tt)
  /\ clear tt threads = Some (zero_table tt)
  /\ (forall c cl j e, table (zero_table tt) !! c = Some cl -> entry cl !! j = Some e ->
                       e = zero_entry)
  /\ (forall key, 0 < clusterCount tt -> (0 < ClusterSize)%nat -> 0 <= key < 2 ^ 64 ->
        exists ref, probe (zero_table tt) key = Some (ref, false))
  /\ (forall h mbSize mem h2,
        alloc_sized -> 0 < sizeof_Cluster ->
        aligned_large_pages_alloc (aligned_large_pages_free h (table tt))
          (size_t (resize_count mbSize * sizeof_Cluster)) = (Some mem, h2) ->
        resize tt h mbSize threads
        = Returned (zero_table (mkTable (resize_count mbSize) mem (generation8 tt))) h2).
Proof.
  intros HT Hc Hlen Hperm.
  split; [intros i Hi; apply clear_stride_eq; assumption|].
  split.
  { intros c Hin. destruct (stride_cover _ _ c HT Hc Hin) as (i & Hi & Hstr).
    exists i. split; [exact Hi|]. split; [exact Hstr|].
    intros j Hj Hstr'. eapply stride_disjoint; eassumption. }
  split; [apply run_tasks_all; assumption|].
  split; [apply clear_zero; assumption|].
  split.
  { intros c cl j e Hcl He. apply zero_table_clusters in Hcl. subst cl.
    eapply zero_cluster_entries, He. }
  split.
  { intros key Hpos Hs Hk. apply probe_zero_table; [lia | exact Hs | exact Hk]. }
  intros h mbSize mem h2 Hsized Hs Halloc.
  rewrite (resize_returns tt h mbSize threads mem h2 Hsized Hs ltac:(lia) Halloc).
  replace (num_threads threads =? 0) with false by (symmetry; apply Z.eqb_neq; lia).
  reflexivity.
Qed.

(** C8.  After a [resize] to [mbSize] megabytes, a byte count that fits
    [size_t], the cluster count of the table is
    [mbSize * 1024 * 1024 / sizeof(Cluster)], an integer division with no
    rounding to a power of two; and [resize] does return whenever the
    allocation succeeds. *)
Theorem resize_cluster_count (tt : TranspositionTable) (h : Heap) (mbSize : Z)
        (threads : ThreadPool) (mem : list Cluster) (h2 : Heap) :
  alloc_sized -> 0 < sizeof_Cluster -> 0 <= num_threads threads < 2 ^ 64 ->
  0 <= mbSize -> mbSize * 1024 * 1024 < 2 ^ 64 ->
  aligned_large_pages_alloc (aligned_large_pages_free h (table tt))
    (size_t (resize_count mbSize * sizeof_Cluster)) = (Some mem, h2) ->
  exists tt',
    resize tt h mbSize threads = Returned tt' h2
    /\ clusterCount tt' = mbSize * 1024 * 1024 / sizeof_Cluster
    /\ Z.of_nat (length (table tt')) = mbSize * 1024 * 1024 / sizeof_Cluster.
Proof.
  intros Hsized Hs HT H0 Hfit Halloc.
  rewrite (resize_returns tt h mbSize threads mem h2 Hsized Hs HT Halloc).
  pose proof (Hsized _ _ _ _ Halloc) as Hlen. rewrite resize_bytes in Hlen by exact Hs.
  pose proof (resize_count_range mbSize Hs) as Hr.
  rewrite <- (resize_count_exact mbSize H0 Hfit).
  eexists. split; [reflexivity|].
  destruct (num_threads threads =? 0); simpl; split; try reflexivity; try exact Hlen.
  rewrite length_replicate. lia.
Qed.

(** C9, as the code has it.  [resize] ends the process only when the
    allocation fails: it then
    prints the diagnostic and exits with [EXIT_FAILURE], which is not zero,
    after that one request to the allocator (the heap is the one the failed
    request left, whatever other sizes the allocator could have served).
    The other operations have no error path: on a table that holds
    [clusterCount] clusters of [ClusterSize] entries, [probe] returns for
    every fingerprint, [clear] returns for every pool, [hashfull] returns
    once the 1000 clusters it samples exist, and [save] returns for every
    input, also with its assertions active when the depth is in the
    asserted range or nothing is overwritten. *)
Theorem operations_infallible :
  (forall tt h mbSize threads h2,
      aligned_large_pages_alloc (aligned_large_pages_free h (table tt))
        (size_t (resize_count mbSize * sizeof_Cluster)) = (None, h2) ->
      resize tt h mbSize threads = Exited EXIT_FAILURE (resize_diagnostic mbSize) h2
      /\ EXIT_FAILURE <> 0)
  /\ (forall tt h mbSize threads status cerr h2,
        resize tt h mbSize threads = Exited status cerr h2 ->
        aligned_large_pages_alloc (aligned_large_pages_free h (table tt))
          (size_t (resize_count mbSize * sizeof_Cluster)) = (None, h2))
  /\ (forall tt key, wf_table tt -> 0 < clusterCount tt -> 0 <= key < 2 ^ 64 ->
        exists ref found, probe tt key = Some (ref, found))
  /\ (forall tt threads,
        0 <= num_threads threads < 2 ^ 64 -> 0 <= clusterCount tt < 2 ^ 64 ->
        Z.of_nat (length (table tt)) = clusterCount tt ->
        exists tt', clear tt threads = Some tt')
  /\ (forall tt, (1000 <= length (table tt))%nat -> Forall wf_cluster (table tt) ->
        exists n, hashfull tt = Some n)
  /\ (forall e k v pv b d m ev g,
        save_asserts d \/ overwrites e k pv b d g = false ->
        save_checked e k v pv b d m ev g = Some (save e k v pv b d m ev g)).
Proof.
  split.
  { intros tt h mbSize threads h2 Halloc. unfold resize. rewrite Halloc.
    split; [reflexivity | discriminate]. }
  split.
  { intros tt h mbSize threads status cerr h2. unfold resize.
    destruct (aligned_large_pages_alloc _ _) as [[mem|] h'].
    - destruct (clear _ threads); discriminate.
    - intros [= _ _ ->]. reflexivity. }
  split.
  { intros tt key Hwf Hpos Hk. apply probe_returns; assumption. }
  split.
  { intros tt threads HT Hc Hlen.
    destruct (Z.eq_dec (num_threads threads) 0) as [E0 | E0].
    - exists tt. apply clear_no_threads. lia.
    - exists (zero_table tt). apply clear_zero; [lia | assumption | assumption]. }
  split.
  { intros tt Hlen Hall. destruct (hashfull_counts tt Hlen Hall) as [Hrun _]. eauto. }
  intros e k v pv b d m ev g Hpre. unfold save_checked.
  assert (Hsave : overwrites e k pv b d g = false ->
                  (if replaces_move e k m
                   then mkTTEntry (key16 e) (depth8 e) (genBound8 e) m (value16 e) (eval16 e)
                   else e) = save e k v pv b d m ev g).
  { intros Hno. unfold save.
    destruct (replaces_move e k m); [rewrite overwrites_ignores_move|];
      rewrite Hno; reflexivity. }
  destruct (replaces_move e k m) eqn:Em; [rewrite overwrites_ignores_move|];
    (destruct (overwrites e k pv b d g) eqn:Eo;
     [ destruct Hpre as [[H1 H2] | Hno]; [|discriminate];
       replace (d >? DEPTH_ENTRY_OFFSET) with true
         by (symmetry; rewrite Z.gtb_ltb; apply Z.ltb_lt; lia);
       replace (d <? 256 + DEPTH_ENTRY_OFFSET) with true
         by (symmetry; apply Z.ltb_lt; lia);
       reflexivity
     | f_equal; apply Hsave; reflexivity ]).
Qed.

(** ** Further properties of [save] and [relative_age] *)

(** The ranges of the six fields: [key16] and [move16] are 16-bit unsigned,
    [depth8] and [genBound8] 8-bit unsigned, [value16] and [eval16] 16-bit
    signed. *)
Definition wf_entry (e : TTEntry) : Prop :=
  0 <= key16 e < 2 ^ 16
  /\ 0 <= depth8 e < 2 ^ 8
  /\ 0 <= genBound8 e < 2 ^ 8
  /\ 0 <= move16 e < 2 ^ 16
  /\ - 2 ^ 15 <= value16 e < 2 ^ 15
  /\ - 2 ^ 15 <= eval16 e < 2 ^ 15.

Lemma uint16_range (x : Z) : 0 <= uint16 x < 2 ^ 16.
Proof. unfold uint16. apply Z.mod_pos_bound. lia. Qed.

Lemma int16_range (x : Z) : - 2 ^ 15 <= int16 x < 2 ^ 15.
Proof.
  unfold int16. pose proof (Z.mod_pos_bound (x + 2 ^ 15) (2 ^ 16) ltac:(lia)). lia.
Qed.

(** [save] by cases on its second test. *)
Lemma save_cases (e : TTEntry) (k v : Z) (pv : bool) (b : Bound) (d m ev g : Z) :
  (overwrites e k pv b d g = true
   /\ save e k v pv b d m ev g
      = mkTTEntry (uint16 k) (uint8 (d - DEPTH_ENTRY_OFFSET))
          (uint8 (Z.lor (Z.lor g (Z.shiftl (uint8 (b2z pv)) 2)) (Bound_value b)))
          (if replaces_move e k m then m else move16 e) (int16 v) (int16 ev))
  \/ (overwrites e k pv b d g = false
      /\ save e k v pv b d m ev g
         = mkTTEntry (key16 e) (depth8 e) (genBound8 e)
             (if replaces_move e k m then m else move16 e) (value16 e) (eval16 e)).
Proof.
  unfold save.
  destruct (replaces_move e k m); [rewrite overwrites_ignores_move|];
    destruct (overwrites e k pv b d g); [left | right | left | right];
    (split; [reflexivity|]); try reflexivity.
  destruct e; reflexivity.
Qed.

Lemma overwrites_false (e : TTEntry) (k : Z) (pv : bool) (b : Bound) (d g : Z) :
  overwrites e k pv b d g = false ->
  b <> BOUND_EXACT
  /\ key16 e = uint16 k
  /\ d - DEPTH_ENTRY_OFFSET + 2 * b2z pv <= depth8 e - 4
  /\ relative_age e g = 0.
Proof.
  unfold overwrites. rewrite !orb_false_iff, !negb_false_iff.
  intros [[[Hb Hk] Hd] Ha].
  apply Z.eqb_eq in Hk, Ha. rewrite Z.gtb_ltb in Hd. apply Z.ltb_ge in Hd.
  repeat split; try assumption; try congruence.
  intros ->. discriminate Hb.
Qed.

(** The generation byte [save] packs keeps the generation in its high
    five bits. *)
Lemma packed_generation (g bv : Z) (pv : bool) :
  0 <= g < 256 -> g mod 8 = 0 -> 0 <= bv < 4 ->
  0 <= uint8 (Z.lor (Z.lor g (Z.shiftl (uint8 (b2z pv)) 2)) bv) < 256
  /\ Z.land (uint8 (Z.lor (Z.lor g (Z.shiftl (uint8 (b2z pv)) 2)) bv)) 248 = g
  /\ Z.land (uint8 (Z.lor (Z.lor g (Z.shiftl (uint8 (b2z pv)) 2)) bv)) 3 = bv
  /\ Z.land (uint8 (Z.lor (Z.lor g (Z.shiftl (uint8 (b2z pv)) 2)) bv)) 4 = 4 * b2z pv.
Proof.
  intros Hg Hg8 Hb.
  pose (byte := fun q p x : Z => uint8 (Z.lor (Z.lor (8 * q) (Z.shiftl (uint8 p) 2)) x)).
  pose (chk := fun q p x : Z =>
          (0 <=? byte q p x) && (byte q p x <? 256)
          && (Z.land (byte q p x) 248 =? 8 * q)
          && (Z.land (byte q p x) 3 =? x)
          && (Z.land (byte q p x) 4 =? 4 * p)).
  assert (Hall : forallb (fun q => forallb (fun p => forallb (chk q p)
                                                       (map Z.of_nat (seq 0 4)))
                                     (map Z.of_nat (seq 0 2)))
                   (map Z.of_nat (seq 0 32)) = true) by (vm_compute; reflexivity).
  assert (Hq : 0 <= g / 8 < Z.of_nat 32).
  { split; [apply Z.div_pos; lia | apply Z.div_lt_upper_bound; lia]. }
  pose proof (forall_below _ 32 Hall (g / 8) Hq) as H1.
  assert (Hp : 0 <= b2z pv < Z.of_nat 2) by (destruct pv; simpl; lia).
  pose proof (forall_below _ 2 H1 (b2z pv) Hp) as H2.
  pose proof (forall_below _ 4 H2 bv ltac:(lia)) as H3.
  unfold chk, byte in H3.
  replace (8 * (g / 8)) with g in H3 by (pose proof (Z.div_mod g 8); lia).
  repeat (apply andb_prop in H3 as [H3 ?]).
  repeat split; lia.
Qed.

Lemma save_key16 (e : TTEntry) (k v : Z) (pv : bool) (b : Bound) (d m ev g : Z) :
  key16 (save e k v pv b d m ev g) = uint16 k.
Proof.
  destruct (save_cases e k v pv b d m ev g) as [[_ ->] | [Hno ->]]; [reflexivity|].
  simpl. apply overwrites_false in Hno. tauto.
Qed.

Lemma save_depth8 (e : TTEntry) (k v : Z) (pv : bool) (b : Bound) (d m ev g : Z) :
  save_asserts d ->
  depth8 (save e k v pv b d m ev g) <> 0
  /\ (overwrites e k pv b d g = true ->
      depth8 (save e k v pv b d m ev g) = d - DEPTH_ENTRY_OFFSET).
Proof.
  intros [H1 H2].
  destruct (save_cases e k v pv b d m ev g) as [[Hyes ->] | [Hno ->]]; simpl.
  - rewrite uint8_small by lia. split; [lia | reflexivity].
  - split; [|intros Hyes; congruence].
    apply overwrites_false in Hno as (_ & _ & Hd & _).
    destruct pv; simpl in Hd; lia.
Qed.

(** X1.  Whatever [save] decides, the entry it leaves carries the low 16
    bits of the fingerprint: the key is either written or was equal. *)
Theorem save_key_fragment (e : TTEntry) (k v : Z) (pv : bool) (b : Bound) (d m ev g : Z) :
  key16 (save e k v pv b d m ev g) = uint16 k.
Proof. apply save_key16. Qed.

(** X2.  With the depth in the range the two assertions of [save] state,
    the entry is occupied after [save]: its depth field is not zero, and
    it is the new depth less the offset whenever the entry is overwritten. *)
Theorem save_occupied (e : TTEntry) (k v : Z) (pv : bool) (b : Bound) (d m ev g : Z) :
  save_asserts d ->
  depth8 (save e k v pv b d m ev g) <> 0
  /\ (overwrites e k pv b d g = true ->
      depth8 (save e k v pv b d m ev g) = d - DEPTH_ENTRY_OFFSET).
Proof. apply save_depth8. Qed.

(** An entry has age zero exactly when its generation bits are the
    current generation. *)
Lemma relative_age_zero_iff (e : TTEntry) (g : Z) :
  GENERATION_CYCLE = 263 -> GENERATION_MASK = 248 ->
  0 <= genBound8 e < 256 -> 0 <= g < 256 -> g mod 8 = 0 ->
  relative_age e g = 0 <-> Z.land (genBound8 e) GENERATION_MASK = g.
Proof.
  intros Hc Hm Hgb Hg Hg8.
  rewrite relative_age_stamped by assumption. rewrite Hm.
  pose proof (generation_bits_range (genBound8 e) Hgb) as [Hr _].
  unfold uint8. change (2 ^ 8) with 256.
  split; intros H.
  - destruct (Z_lt_ge_dec g (Z.land (genBound8 e) 248)) as [Hlt | Hge].
    + replace (g - Z.land (genBound8 e) 248)
        with (g - Z.land (genBound8 e) 248 + 256 + (-1) * 256) in H by lia.
      rewrite Z.mod_add in H by lia. rewrite Z.mod_small in H by lia. lia.
    + rewrite Z.mod_small in H by lia. lia.
  - rewrite H. replace (g - g) with 0 by lia. reflexivity.
Qed.

(** X3.  After [save] with the current generation [g] the entry is never
    stale: its relative age with respect to [g] is zero, whether the entry
    was overwritten (the byte then carries [g]) or kept (it was kept only
    because its age was zero).  With the depth in the asserted range it
    is also one of the entries [hashfull] counts. *)
Theorem save_not_stale (e : TTEntry) (k v : Z) (pv : bool) (b : Bound) (d m ev g : Z) :
  GENERATION_CYCLE = 263 -> GENERATION_MASK = 248 ->
  0 <= g < 256 -> g mod 8 = 0 -> 0 <= Bound_value b < 4 ->
  relative_age (save e k v pv b d m ev g) g = 0
  /\ (save_asserts d -> 0 <= genBound8 e < 256 ->
      is_fresh g (save e k v pv b d m ev g) = true).
Proof.
  intros Hc Hm Hg Hg8 Hb.
  pose proof (packed_generation g (Bound_value b) pv Hg Hg8 Hb) as (Hr & Hgen & _ & _).
  assert (Hage : relative_age (save e k v pv b d m ev g) g = 0).
  { destruct (save_cases e k v pv b d m ev g) as [[_ ->] | [Hno ->]].
    - apply relative_age_same_generation; simpl; try assumption.
      rewrite Hm. exact Hgen.
    - apply overwrites_false in Hno as (_ & _ & _ & Ha). exact Ha. }
  split; [exact Hage|].
  intros Hd Hgb. unfold is_fresh.
  pose proof (save_depth8 e k v pv b d m ev g Hd) as [Hocc _].
  assert (Hrange : 0 <= genBound8 (save e k v pv b d m ev g) < 256).
  { destruct (save_cases e k v pv b d m ev g) as [[_ ->] | [_ ->]]; simpl; assumption. }
  apply (relative_age_zero_iff _ g Hc Hm Hrange Hg Hg8) in Hage.
  rewrite Hage, Z.eqb_refl.
  apply Z.eqb_neq in Hocc. rewrite Hocc. reflexivity.
Qed.

(** X4.  Saving the same data twice is the same as saving it once. *)
Theorem save_idempotent (e : TTEntry) (k v : Z) (pv : bool) (b : Bound) (d m ev g : Z) :
  save (save e k v pv b d m ev g) k v pv b d m ev g = save e k v pv b d m ev g.
Proof.
  set (e' := save e k v pv b d m ev g).
  assert (Hkey : key16 e' = uint16 k) by apply save_key16.
  assert (Hmove : (if replaces_move e' k m then m else move16 e') = move16 e').
  { unfold replaces_move. rewrite Hkey, Z.eqb_refl. simpl. rewrite orb_false_r.
    destruct (m =? 0) eqn:Em; [reflexivity|]. simpl.
    unfold e'. rewrite save_move. unfold replaces_move. rewrite Em. reflexivity. }
  destruct (save_cases e' k v pv b d m ev g) as [[Hyes ->] | [Hno ->]]; rewrite Hmove.
  - unfold e' in *.
    destruct (save_cases e k v pv b d m ev g) as [[_ Hs] | [Hno Hs]].
    + rewrite Hs. reflexivity.
    + exfalso. rewrite Hs in Hyes. unfold overwrites in Hyes, Hno. simpl in Hyes.
      unfold relative_age in Hyes, Hno. simpl in Hyes. congruence.
  - destruct e'; reflexivity.
Qed.

(** X5.  [save] keeps every field within the width of its type: an entry
    within range stays within range, for a move of 16 bits. *)
Theorem save_keeps_ranges (e : TTEntry) (k v : Z) (pv : bool) (b : Bound) (d m ev g : Z) :
  wf_entry e -> 0 <= m < 2 ^ 16 ->
  wf_entry (save e k v pv b d m ev g).
Proof.
  intros (Hk & Hd & Hgb & Hm & Hv & Hev) Hmove.
  assert (Hm' : 0 <= (if replaces_move e k m then m else move16 e) < 2 ^ 16)
    by (destruct (replaces_move e k m); assumption).
  destruct (save_cases e k v pv b d m ev g) as [[_ ->] | [_ ->]];
    unfold wf_entry; simpl; repeat split;
    try apply uint16_range; try apply uint8_range; try apply int16_range; lia.
Qed.

(** X6.  A [save] with a bound other than EXACT, on the same key fragment
    and on an entry of age zero, lowers the depth field by 3 at most, 5 for
    a pv node: a deeper result survives a much shallower one. *)
Theorem save_depth_drop (e : TTEntry) (k v : Z) (pv : bool) (b : Bound) (d m ev g : Z) :
  save_asserts d ->
  b <> BOUND_EXACT -> key16 e = uint16 k -> relative_age e g = 0 ->
  depth8 e - depth8 (save e k v pv b d m ev g) <= 3 + 2 * b2z pv.
Proof.
  intros [H1 H2] Hb Hk Ha.
  destruct (save_cases e k v pv b d m ev g) as [[Hyes ->] | [_ ->]]; simpl.
  - rewrite uint8_small by lia.
    unfold overwrites in Hyes. rewrite Ha, Hk, Z.eqb_refl in Hyes.
    replace (Bound_eqb b BOUND_EXACT) with false in Hyes
      by (symmetry; destruct b; try reflexivity; congruence).
    simpl in Hyes. rewrite orb_false_r in Hyes.
    rewrite Z.gtb_ltb in Hyes. apply Z.ltb_lt in Hyes. lia.
  - destruct pv; simpl; lia.
Qed.

(** X7.  With the cycle 255 + 8 and the mask 0xF8, the age of an entry
    depends on its generation bits only, not on the bound and pv bits of
    the byte; it is a multiple of 8, the distance from the stored to the
    current generation modulo 256, and zero exactly for an entry of the
    current generation. *)
Theorem relative_age_generation_only (e e' : TTEntry) (g : Z) :
  GENERATION_CYCLE = 263 -> GENERATION_MASK = 248 ->
  0 <= genBound8 e < 256 -> 0 <= genBound8 e' < 256 ->
  0 <= g < 256 -> g mod 8 = 0 ->
  (Z.land (genBound8 e) GENERATION_MASK = Z.land (genBound8 e') GENERATION_MASK ->
   relative_age e g = relative_age e' g)
  /\ relative_age e g = (g - Z.land (genBound8 e) GENERATION_MASK) mod 256
  /\ relative_age e g mod 8 = 0
  /\ (relative_age e g = 0 <-> Z.land (genBound8 e) GENERATION_MASK = g).
Proof.
  intros Hc Hm Hgb Hgb' Hg Hg8.
  split; [|split; [|split]].
  - intros Heq. rewrite !relative_age_stamped by assumption. rewrite Heq. reflexivity.
  - rewrite relative_age_stamped by assumption. reflexivity.
  - rewrite relative_age_stamped by assumption. rewrite Hm.
    pose proof (generation_bits_range (genBound8 e) Hgb) as [_ Hs8].
    unfold uint8. change (2 ^ 8) with (8 * 32).
    rewrite Z.rem_mul_r by lia.
    rewrite Z.mul_comm, Z.mod_add by lia.
    rewrite Z.mod_mod by lia.
    rewrite Zminus_mod, Hg8, Hs8. reflexivity.
  - apply relative_age_zero_iff; assumption.
Qed.

(** ** [probe] and [save] together *)

(** The entry a [TTEntry*] points to, and a write through the pointer.
    A pointer outside the table has no entry. *)
Definition entry_at (tt : TranspositionTable) (ref : TTEntryRef) : option TTEntry :=
  if 0 <=? fst ref
  then c ← table tt !! Z.to_nat (fst ref); entry c !! snd ref
  else None.

Definition store (tt : TranspositionTable) (ref : TTEntryRef) (e : TTEntry)
  : option TranspositionTable :=
  if 0 <=? fst ref
  then c ← table tt !! Z.to_nat (fst ref);
       _ ← entry c !! snd ref;
       Some (mkTable (clusterCount tt)
               (<[Z.to_nat (fst ref) := mkCluster (<[snd ref := e]> (entry c))]> (table tt))
               (generation8 tt))
  else None.

(** [tte->save(k, v, pv, b, d, m, ev, generation8)] for [tte] a pointer
    into the table. *)
Definition save_at (tt : TranspositionTable) (ref : TTEntryRef)
           (k v : Z) (pv : bool) (b : Bound) (d m ev g : Z) : option TranspositionTable :=
  e ← entry_at tt ref;
  store tt ref (save e k v pv b d m ev g).

(** What a result of [probe] says about the table. *)
Lemma probe_result (tt : TranspositionTable) (key ci : Z) (i : nat) (found : bool) :
  wf_table tt -> 0 < clusterCount tt -> 0 <= key < 2 ^ 64 ->
  probe tt key = Some ((ci, i), found) ->
  ci = first_entry tt key
  /\ 0 <= ci < clusterCount tt
  /\ (i < ClusterSize)%nat
  /\ exists c e,
       table tt !! Z.to_nat ci = Some c
       /\ length (entry c) = ClusterSize
       /\ entry c !! i = Some e
       /\ (forall j ej, (j < i)%nat -> entry c !! j = Some ej -> key16 ej <> uint16 key)
       /\ found = (key16 e =? uint16 key) && negb (depth8 e =? 0)
       /\ (key16 e <> uint16 key ->
           first_least (generation8 tt) (entry c) ClusterSize i
           /\ forall j ej, entry c !! j = Some ej -> key16 ej <> uint16 key).
Proof.
  intros Hwf Hpos Hk Hprobe.
  pose proof (mul_hi64_range key (clusterCount tt) Hk Hpos) as Hci.
  fold (first_entry tt key) in Hci.
  destruct (first_entry_in_table tt key Hwf Hpos Hk) as (c0 & Hc0 & Hsize & _).
  destruct (probe_cases tt key Hwf Hpos Hk) as (c & Hc & Hhit & Hmiss).
  assert (c0 = c) by congruence. subst c0.
  destruct (existsb (fun e => key16 e =? uint16 key) (entry c)) eqn:Ex.
  - apply existsb_exists in Ex as (e0 & Hin & He0).
    apply list_elem_of_In, list_elem_of_lookup in Hin as [i0 Hi0].
    destruct Hhit as (i' & e & Hres & Hi' & Hkey & Hbefore).
    { exists i0, e0. split; [exact Hi0 | apply Z.eqb_eq, He0]. }
    rewrite Hres in Hprobe. injection Hprobe as <- <- <-.
    split; [reflexivity|]. split; [exact Hci|].
    split; [apply lookup_lt_Some in Hi'; lia|].
    exists c, e.
    split; [exact Hc|]. split; [exact Hsize|]. split; [exact Hi'|].
    split; [exact Hbefore|].
    split; [rewrite Hkey, Z.eqb_refl; reflexivity|].
    intros Hne. contradiction.
  - assert (Hno : forall j ej, entry c !! j = Some ej -> key16 ej <> uint16 key).
    { intros j ej Hj Hkj.
      assert (Hex : existsb (fun e => key16 e =? uint16 key) (entry c) = true).
      { apply existsb_exists. exists ej. split; [|apply Z.eqb_eq, Hkj].
        apply list_elem_of_In. eapply list_elem_of_lookup_2, Hj. }
      congruence. }
    destruct (Hmiss Hno) as (r & Hres & Hleast).
    rewrite Hres in Hprobe. injection Hprobe as <- <- <-.
    pose proof Hleast as (Hr & er & Her & _).
    split; [reflexivity|]. split; [exact Hci|]. split; [exact Hr|].
    exists c, er.
    split; [exact Hc|]. split; [exact Hsize|]. split; [exact Her|].
    split; [intros j ej _ Hj; eapply Hno, Hj|].
    split.
    + replace (key16 er =? uint16 key) with false; [reflexivity|].
      symmetry. apply Z.eqb_neq. eapply Hno, Her.
    + intros _. split; [exact Hleast | exact Hno].
Qed.

(** X8.  The pointer [probe] returns is valid: it lies in the cluster that
    owns the fingerprint, inside the table, at one of the [ClusterSize]
    slots; and [found] is true exactly when the entry there has the key
    fragment of the fingerprint and a depth field that is not zero. *)
Theorem probe_pointer_valid (tt : TranspositionTable) (key : Z) (ref : TTEntryRef)
        (found : bool) :
  wf_table tt -> 0 < clusterCount tt -> 0 <= key < 2 ^ 64 ->
  probe tt key = Some (ref, found) ->
  fst ref = first_entry tt key
  /\ 0 <= fst ref < clusterCount tt
  /\ (snd ref < ClusterSize)%nat
  /\ exists e, entry_at tt ref = Some e
               /\ (found = true <-> key16 e = uint16 key /\ depth8 e <> 0).
Proof.
  intros Hwf Hpos Hk Hprobe. destruct ref as [ci i].
  destruct (probe_result tt key ci i found Hwf Hpos Hk Hprobe)
    as (Hci & Hrange & Hi & c & e & Hc & _ & He & _ & Hfound & _).
  simpl. split; [exact Hci|]. split; [exact Hrange|]. split; [exact Hi|].
  exists e. split.
  - unfold entry_at. simpl.
    replace (0 <=? ci) with true by (symmetry; apply Z.leb_le; lia).
    rewrite Hc. simpl. exact He.
  - rewrite Hfound, andb_true_iff, negb_true_iff, Z.eqb_eq, Z.eqb_neq. tauto.
Qed.

(** X9.  [probe], then [save] through the pointer it returned, then [probe]
    again with the same fingerprint: for a depth in the asserted range the
    write stays inside the table, the table keeps its shape, and the second
    [probe] returns the same pointer with [found = true], the entry there
    being what [save] made of the old one.  When the first [probe] had
    reported [found = false], [save] has written all five payload fields. *)
Theorem probe_save_probe (tt : TranspositionTable) (key : Z) (ref : TTEntryRef)
        (found : bool) (v : Z) (pv : bool) (b : Bound) (d m ev g : Z) :
  wf_table tt -> 0 < clusterCount tt -> 0 <= key < 2 ^ 64 ->
  save_asserts d ->
  probe tt key = Some (ref, found) ->
  exists e tt',
    entry_at tt ref = Some e
    /\ save_at tt ref key v pv b d m ev g = Some tt'
    /\ wf_table tt'
    /\ clusterCount tt' = clusterCount tt
    /\ probe tt' key = Some (ref, true)
    /\ entry_at tt' ref = Some (save e key v pv b d m ev g)
    /\ (found = false ->
        payload_written (save e key v pv b d m ev g) key v pv b d ev g).
Proof.
  intros Hwf Hpos Hk Hd Hprobe. destruct ref as [ci i].
  destruct (probe_result tt key ci i found Hwf Hpos Hk Hprobe)
    as (Hci & Hrange & Hi & c & e & Hc & Hsize & He & Hbefore & Hfound & _).
  set (e' := save e key v pv b d m ev g).
  set (c' := mkCluster (<[i := e']> (entry c))).
  set (tt' := mkTable (clusterCount tt) (<[Z.to_nat ci := c']> (table tt)) (generation8 tt)).
  assert (Hle : (0 <=? ci) = true) by (apply Z.leb_le; lia).
  assert (Hat : entry_at tt (ci, i) = Some e).
  { unfold entry_at. simpl. rewrite Hle, Hc. simpl. exact He. }
  assert (Hsave : save_at tt (ci, i) key v pv b d m ev g = Some tt').
  { unfold save_at. rewrite Hat. simpl. unfold store. simpl.
    rewrite Hle, Hc. simpl. rewrite He. reflexivity. }
  destruct Hwf as (Hlen & Hcount & Hall).
  assert (Hcilt : (Z.to_nat ci < length (table tt))%nat) by lia.
  assert (Hc' : table tt' !! Z.to_nat ci = Some c').
  { simpl. apply list_lookup_insert_eq. exact Hcilt. }
  assert (He' : entry c' !! i = Some e').
  { simpl. apply list_lookup_insert_eq. lia. }
  assert (Hwf' : wf_table tt').
  { split; [simpl; rewrite length_insert; exact Hlen|]. split; [exact Hcount|].
    simpl. apply Forall_insert; [exact Hall|].
    split; [simpl; rewrite length_insert; exact Hsize | lia]. }
  exists e, tt'.
  split; [exact Hat|]. split; [exact Hsave|]. split; [exact Hwf'|].
  split; [reflexivity|].
  split; [|split].
  - destruct (probe_cases tt' key Hwf' Hpos Hk) as (c1 & Hc1 & Hhit & _).
    change (first_entry tt' key) with (first_entry tt key) in Hc1, Hhit.
    rewrite <- Hci in Hc1, Hhit. rewrite Hc' in Hc1. injection Hc1 as <-.
    destruct Hhit as (i1 & e1 & Hres & Hi1 & Hkey1 & Hbefore1).
    { exists i, e'. split; [exact He' | apply save_key16]. }
    assert (i1 = i).
    { destruct (lt_eq_lt_dec i1 i) as [[Hlt | Heq] | Hgt]; [exfalso | exact Heq | exfalso].
      - simpl in Hi1. rewrite list_lookup_insert_ne in Hi1 by lia.
        exact (Hbefore i1 e1 Hlt Hi1 Hkey1).
      - exact (Hbefore1 i e' Hgt He' (save_key16 e key v pv b d m ev g)). }
    subst i1. rewrite He' in Hi1. injection Hi1 as <-.
    rewrite Hres. do 2 f_equal.
    pose proof (save_depth8 e key v pv b d m ev g Hd) as [Hocc _].
    apply Z.eqb_neq in Hocc. fold e' in Hocc. rewrite Hocc. reflexivity.
  - unfold entry_at. simpl fst. simpl snd. rewrite Hle, Hc'. simpl. exact He'.
  - intros Hnot. apply save_when_overwriting.
    rewrite Hnot in Hfound. symmetry in Hfound.
    apply andb_false_iff in Hfound as [Hkey | Hdepth].
    + unfold overwrites. rewrite Z.eqb_sym, Hkey. simpl.
      rewrite orb_true_r. reflexivity.
    + apply negb_false_iff, Z.eqb_eq in Hdepth.
      unfold overwrites. rewrite Hdepth.
      assert (Hgt : (d - DEPTH_ENTRY_OFFSET + 2 * b2z pv >? 0 - 4) = true).
      { rewrite Z.gtb_ltb. apply Z.ltb_lt. destruct Hd. destruct pv; simpl; lia. }
      rewrite Hgt. rewrite orb_true_r. reflexivity.
Qed.

(** X10.  When no entry of the cluster matches and the cluster has an
    empty slot (depth field zero), the entry [probe] offers for
    replacement is itself empty or stale: an occupied entry of the current
    generation is not given up while an empty slot is left. *)
Theorem probe_spares_fresh (tt : TranspositionTable) (key : Z) (ref : TTEntryRef)
        (found : bool) (e : TTEntry) (j : nat) (e0 : TTEntry) :
  wf_table tt -> 0 < clusterCount tt -> 0 <= key < 2 ^ 64 ->
  probe tt key = Some (ref, found) ->
  entry_at tt ref = Some e ->
  key16 e <> uint16 key ->
  entry_at tt (fst ref, j) = Some e0 -> depth8 e0 = 0 ->
  0 <= depth8 e ->
  depth8 e = 0 \/ relative_age e (generation8 tt) <> 0.
Proof.
  intros Hwf Hpos Hk Hprobe Hat Hne Hat0 Hzero Hdepth. destruct ref as [ci i].
  destruct (probe_result tt key ci i found Hwf Hpos Hk Hprobe)
    as (Hci & Hrange & Hi & c & e1 & Hc & Hsize & He1 & _ & _ & Hmiss).
  assert (Hle : (0 <=? ci) = true) by (apply Z.leb_le; lia).
  unfold entry_at in Hat, Hat0. simpl in Hat, Hat0.
  rewrite Hle, Hc in Hat, Hat0. simpl in Hat, Hat0.
  assert (e1 = e) by congruence. subst e1.
  destruct (Hmiss Hne) as [(_ & er & Her & Hmin & _) _].
  assert (er = e) by congruence. subst er.
  assert (Hj : (j < ClusterSize)%nat) by (apply lookup_lt_Some in Hat0; lia).
  specialize (Hmin j e0 Hj Hat0). unfold replace_value in Hmin. rewrite Hzero in Hmin.
  pose proof (relative_age_range e0 (generation8 tt)).
  destruct (Z.eq_dec (relative_age e (generation8 tt)) 0) as [Hage | Hage];
    [left; lia | right; exact Hage].
Qed.

(** ** Further properties of [hashfull], [clear] and [resize] *)

Lemma fresh_entries_none (g : Z) (es : list TTEntry) :
  Forall (fun e => is_fresh g e = false) es -> fresh_entries g es = 0.
Proof.
  induction 1 as [|e es He _ IH]; [reflexivity|].
  rewrite fresh_entries_cons, He, IH. reflexivity.
Qed.

Lemma fresh_entries_all (g : Z) (es : list TTEntry) :
  Forall (fun e => is_fresh g e = true) es -> fresh_entries g es = Z.of_nat (length es).
Proof.
  induction 1 as [|e es He _ IH]; [reflexivity|].
  rewrite fresh_entries_cons, He, IH. simpl length. simpl b2z. lia.
Qed.

Lemma fresh_count_none (g : Z) (cs : list Cluster) :
  Forall (fun c => Forall (fun e => is_fresh g e = false) (entry c)) cs ->
  fresh_count g cs = 0.
Proof.
  induction 1 as [|c cs Hc _ IH]; [reflexivity|].
  rewrite fresh_count_cons, IH, (fresh_entries_none g _ Hc). reflexivity.
Qed.

Lemma fresh_count_all (g : Z) (cs : list Cluster) :
  Forall wf_cluster cs ->
  Forall (fun c => Forall (fun e => is_fresh g e = true) (entry c)) cs ->
  fresh_count g cs = Z.of_nat (length cs) * Z.of_nat ClusterSize.
Proof.
  induction 1 as [|c cs [Hc _] _ IH]; intros Hall; [reflexivity|].
  apply Forall_cons in Hall as [Hfresh Hall].
  rewrite fresh_count_cons, (IH Hall), (fresh_entries_all g _ Hfresh), Hc.
  simpl length. lia.
Qed.

(** X11.  The two ends of the scale of [hashfull], on a table of at least
    1000 clusters: 0 when none of the entries of the first 1000 clusters is
    occupied and of the current generation, 1000 when all of them are.
    Entries of older generations do not count, however deep. *)
Theorem hashfull_extremes (tt : TranspositionTable) :
  (1000 <= length (table tt))%nat ->
  Forall wf_cluster (table tt) ->
  (Forall (fun c => Forall (fun e => is_fresh (generation8 tt) e = false) (entry c))
          (take 1000 (table tt)) ->
   hashfull tt = Some 0)
  /\ (Forall (fun c => Forall (fun e => is_fresh (generation8 tt) e = true) (entry c))
             (take 1000 (table tt)) ->
      hashfull tt = Some 1000).
Proof.
  intros Hlen Hall.
  destruct (hashfull_counts tt Hlen Hall) as (Hrun & _ & Hpos).
  rewrite Hrun. unfold hashfull_spec.
  split; intros Hfresh.
  - rewrite (fresh_count_none _ _ Hfresh). rewrite Z.div_0_l by lia. reflexivity.
  - rewrite (fresh_count_all _ _ ltac:(apply Forall_take; exact Hall) Hfresh).
    rewrite length_take.
    replace (1000 `min` length (table tt))%nat with 1000%nat by lia.
    rewrite Z.div_mul by lia. reflexivity.
Qed.

(** X12.  [clear], then [hashfull]: after a clear by at least one thread a
    table of 1000 clusters or more reports 0 per mille. *)
Theorem hashfull_after_clear (tt : TranspositionTable) (threads : ThreadPool) :
  0 < num_threads threads < 2 ^ 64 ->
  1000 <= clusterCount tt < 2 ^ 64 ->
  Z.of_nat (length (table tt)) = clusterCount tt ->
  (0 < ClusterSize)%nat ->
  exists tt', clear tt threads = Some tt' /\ hashfull tt' = Some 0.
Proof.
  intros HT Hc Hlen Hs.
  exists (zero_table tt). split; [apply clear_zero; [exact HT | lia | exact Hlen]|].
  pose proof (zero_table_wf tt ltac:(lia) Hs) as (Hlen0 & _ & Hall0).
  assert (Hlen1 : (1000 <= length (table (zero_table tt)))%nat) by (simpl in *; lia).
  destruct (hashfull_counts (zero_table tt) Hlen1 Hall0) as (Hrun & _ & Hpos).
  rewrite Hrun. unfold hashfull_spec. rewrite fresh_count_none.
  - rewrite Z.div_0_l by lia. reflexivity.
  - apply Forall_take. simpl. apply Forall_replicate.
    unfold zero_cluster. simpl. apply Forall_replicate. reflexivity.
Qed.

(** X13.  The strides of [clear] follow one another without a gap: the
    first starts at cluster 0, each starts where the one before ends, and
    the last ends at [clusterCount], so no [memset] reaches outside the
    table.  They are balanced: every stride has [clusterCount / threadCount]
    clusters, the last one fewer than [threadCount] more. *)
Theorem clear_strides_adjacent (count threadCount : Z) :
  0 < threadCount < 2 ^ 64 -> 0 <= count < 2 ^ 64 ->
  fst (clear_stride count threadCount 0) = 0
  /\ (forall i, 0 <= i < threadCount - 1 ->
        fst (clear_stride count threadCount (i + 1))
        = fst (clear_stride count threadCount i) + snd (clear_stride count threadCount i))
  /\ fst (clear_stride count threadCount (threadCount - 1))
     + snd (clear_stride count threadCount (threadCount - 1)) = count
  /\ (forall i, 0 <= i < threadCount ->
        count / threadCount <= snd (clear_stride count threadCount i)
        < count / threadCount + threadCount).
Proof.
  intros HT Hc.
  pose proof (Z.div_mod count threadCount ltac:(lia)) as Hdm.
  pose proof (Z.mod_pos_bound count threadCount ltac:(lia)) as Hmod.
  split; [rewrite clear_stride_eq by lia; simpl; lia|].
  split.
  { intros i Hi. rewrite !clear_stride_eq by lia. simpl.
    replace (i =? threadCount - 1) with false by (symmetry; apply Z.eqb_neq; lia).
    lia. }
  split.
  { rewrite clear_stride_eq by lia. simpl. rewrite Z.eqb_refl. nia. }
  intros i Hi. rewrite clear_stride_eq by lia. simpl.
  destruct (i =? threadCount - 1); lia.
Qed.

(** X14.  With an empty pool [clear] runs no task and leaves the table as
    it is; [resize] then returns the block as the allocator handed it out,
    not zeroed. *)
Theorem clear_empty_pool (tt : TranspositionTable) (threads : ThreadPool) :
  num_threads threads = 0 ->
  clear tt threads = Some tt
  /\ forall h mbSize mem h2,
       aligned_large_pages_alloc (aligned_large_pages_free h (table tt))
         (size_t (resize_count mbSize * sizeof_Cluster)) = (Some mem, h2) ->
       resize tt h mbSize threads
       = Returned (mkTable (resize_count mbSize) mem (generation8 tt)) h2.
Proof.
  intros H0. split; [apply clear_no_threads; lia|].
  intros h mbSize mem h2 Halloc. unfold resize. rewrite Halloc.
  rewrite clear_no_threads by lia. reflexivity.
Qed.

(** X15.  The byte count of [resize] is computed in [size_t]: the cluster
    count is that of the request modulo 2^44 megabytes, so a request 2^44
    megabytes larger gives the same table, and the block asked of the
    allocator always fits 64 bits. *)
Theorem resize_count_wraps (mbSize : Z) :
  0 < sizeof_Cluster -> 0 <= mbSize ->
  resize_count mbSize = (mbSize mod 2 ^ 44) * 1024 * 1024 / sizeof_Cluster
  /\ resize_count (mbSize + 2 ^ 44) = resize_count mbSize
  /\ 0 <= resize_count mbSize * sizeof_Cluster < 2 ^ 64.
Proof.
  intros Hs H0.
  assert (Hwrap : forall x, size_t (size_t (x * 1024) * 1024) = (x mod 2 ^ 44) * 1024 * 1024).
  { intros x. unfold size_t.
    rewrite Z.mul_mod_idemp_l by lia.
    replace (x * 1024 * 1024) with (x * 2 ^ 20) by lia.
    change (2 ^ 64) with (2 ^ 44 * 2 ^ 20).
    rewrite Z.mul_mod_distr_r by lia. lia. }
  assert (Hcount : forall x, resize_count x = (x mod 2 ^ 44) * 1024 * 1024 / sizeof_Cluster).
  { intros x. unfold resize_count. rewrite Hwrap. reflexivity. }
  split; [apply Hcount|]. split.
  - rewrite !Hcount. do 2 f_equal.
    replace (mbSize + 2 ^ 44) with (mbSize + 1 * 2 ^ 44) by lia.
    rewrite Z.mod_add by lia. reflexivity.
  - rewrite Hcount.
    pose proof (Z.mod_pos_bound mbSize (2 ^ 44) ltac:(lia)) as Hm.
    pose proof (Z.div_mod ((mbSize mod 2 ^ 44) * 1024 * 1024) sizeof_Cluster ltac:(lia)).
    pose proof (Z.mod_pos_bound ((mbSize mod 2 ^ 44) * 1024 * 1024) sizeof_Cluster Hs).
    assert (0 <= (mbSize mod 2 ^ 44) * 1024 * 1024 / sizeof_Cluster)
      by (apply Z.div_pos; lia).
    nia.
Qed.

End Table.

(** ** The definitions at concrete constants

    A choice of the constants of [tt.h] and [types.h] to run the definitions
    on: three low bits of [genBound8] for the bound and the pv flag (as
    [save] packs them), clusters of three entries in 32 bytes, and a small
    allocator that hands out blocks while the heap has bytes left. *)
Module SF.

Definition DEPTH_ENTRY_OFFSET : Z := -3.
Definition GENERATION_BITS : Z := 3.
Definition GENERATION_DELTA : Z := Z.shiftl 1 GENERATION_BITS.
Definition GENERATION_CYCLE : Z := 255 + GENERATION_DELTA.
Definition GENERATION_MASK : Z := Z.land (Z.shiftl 255 GENERATION_BITS) 255.
Definition ClusterSize : nat := 3.
Definition sizeof_Cluster : Z := 32.

Definition Bound_value (b : Bound) : Z :=
  match b with
  | BOUND_NONE => 0
  | BOUND_UPPER => 1
  | BOUND_LOWER => 2
  | BOUND_EXACT => 3
  end.

(** The heap is the number of bytes left. *)
Definition Heap : Type := Z.

(** What a fresh block holds before it is cleared. *)
Definition stale_entry : TTEntry := mkTTEntry 51966 17 42 99 (-5) 12.
Definition stale_cluster : Cluster := mkCluster (replicate ClusterSize stale_entry).

Definition alloc (h : Heap) (bytes : Z) : option (list Cluster) * Heap :=
  if (0 <=? bytes) && (bytes <=? h)
  then (Some (replicate (Z.to_nat (bytes / sizeof_Cluster)) stale_cluster), h - bytes)
  else (None, h).

Definition free (h : Heap) (t : list Cluster) : Heap :=
  h + sizeof_Cluster * Z.of_nat (length t).

Definition relative_age : TTEntry -> Z -> Z :=
  TT.relative_age GENERATION_CYCLE GENERATION_MASK.

Definition save : TTEntry -> Z -> Z -> bool -> Bound -> Z -> Z -> Z -> Z -> TTEntry :=
  TT.save DEPTH_ENTRY_OFFSET GENERATION_CYCLE GENERATION_MASK Bound_value.

Definition probe : TranspositionTable -> Z -> option (TTEntryRef * bool) :=
  TT.probe GENERATION_CYCLE GENERATION_MASK ClusterSize.

Definition hashfull : TranspositionTable -> option Z :=
  TT.hashfull GENERATION_MASK ClusterSize.

Definition hashfull_spec : TranspositionTable -> Z :=
  TT.hashfull_spec GENERATION_MASK ClusterSize.

Definition clear : TranspositionTable -> ThreadPool -> option TranspositionTable :=
  TT.clear ClusterSize.

Definition resize : TranspositionTable -> Heap -> Z -> ThreadPool -> Outcome Heap :=
  TT.resize ClusterSize sizeof_Cluster Heap alloc free.

(** An entry of depth 10 (stored as 13), stamped at generation 40 with
    bound LOWER, and a table of four clusters around it. *)
Definition entry10 : TTEntry := mkTTEntry 4660 13 42 7 100 50.

Definition small_table : TranspositionTable :=
  mkTable 4
    [ mkCluster [zero_entry; entry10; zero_entry];
      mkCluster [mkTTEntry 1 20 40 0 0 0; mkTTEntry 2 9 40 0 0 0; mkTTEntry 3 9 32 0 0 0];
      stale_cluster;
      mkCluster [zero_entry; zero_entry; zero_entry] ]
    40.

(** A table of 1000 clusters, each with two entries of the current
    generation and an old one. *)
Definition sample_cluster : Cluster :=
  mkCluster [mkTTEntry 1 20 41 0 0 0; mkTTEntry 2 9 46 0 0 0; mkTTEntry 3 9 32 0 0 0].

Definition sample_table : TranspositionTable :=
  mkTable 1000 (replicate 1000 sample_cluster) 40.

(** A table too small for [hashfull]: two clusters, all entries fresh. *)
Definition tiny_table : TranspositionTable :=
  mkTable 2
    [ mkCluster [mkTTEntry 1 20 41 0 0 0; mkTTEntry 2 9 46 0 0 0; mkTTEntry 3 9 42 0 0 0];
      mkCluster [mkTTEntry 4 20 41 0 0 0; mkTTEntry 5 9 46 0 0 0; mkTTEntry 6 9 42 0 0 0] ]
    40.

End SF.

Lemma alloc_sized_SF : alloc_sized SF.sizeof_Cluster SF.Heap SF.alloc.
Proof.
  intros h bytes mem h'. unfold SF.alloc.
  destruct ((0 <=? bytes) && (bytes <=? h)) eqn:E; [|discriminate].
  intros [= <- _]. apply andb_prop in E as [E _]. apply Z.leb_le in E.
  rewrite length_replicate.
  assert (0 <= bytes / SF.sizeof_Cluster) by (apply Z.div_pos; [lia | reflexivity]).
  lia.
Qed.

(** ** The theorems at concrete inputs *)

(** At depth 9 against a stored depth of 10, same generation, same key
    fragment, bound LOWER and pv false, [save] does overwrite: the depth
    field goes from 13 to 12, and value and static evaluation are replaced
    (9 + 0 is above 10 - 4).  The move is kept, as no move was given. *)
Lemma save_depth9_overwrites :
  SF.save SF.entry10 2882343476 200 false BOUND_LOWER 9 0 60 40
  = mkTTEntry 4660 12 42 7 200 60
  /\ SF.entry10 = mkTTEntry 4660 13 42 7 100 50
  /\ uint16 2882343476 = key16 SF.entry10
  /\ stored_depth SF.DEPTH_ENTRY_OFFSET SF.entry10 = 10
  /\ SF.relative_age SF.entry10 40 = 0.
Proof. vm_compute. repeat split; reflexivity. Qed.

(** At depth 6 the same call keeps the five payload fields. *)
Lemma save_same_generation_lower_witness :
  payload_kept SF.entry10 (SF.save SF.entry10 2882343476 200 false BOUND_LOWER 6 0 60 40).
Proof.
  refine (proj1 (save_same_generation_lower SF.DEPTH_ENTRY_OFFSET SF.GENERATION_CYCLE
                   SF.GENERATION_MASK SF.Bound_value SF.entry10 2882343476 200 0 60 40 6
                   _ _ _ _ _ _) _).
  - reflexivity.
  - reflexivity.
  - simpl. lia.
  - reflexivity.
  - reflexivity.
  - reflexivity.
  - lia.
Defined.

Lemma relative_age_cyclic_witness :
  SF.relative_age SF.entry10 (uint8 (40 + 232)) = 232
  /\ SF.relative_age SF.entry10 (uint8 (40 + 232 + 256)) = 232.
Proof.
  refine (proj2 (proj2 (proj2 (proj2 (relative_age_cyclic SF.GENERATION_CYCLE
            SF.GENERATION_MASK SF.entry10 40 232))) _ _ _ _ _ _)).
  - reflexivity.
  - reflexivity.
  - simpl. lia.
  - reflexivity.
  - lia.
  - reflexivity.
Defined.

(** Depth 9 overwrites by the depth condition alone; depth 6 meets none of
    the four conditions. *)
Lemma save_overwrite_iff_witness :
  payload_written SF.DEPTH_ENTRY_OFFSET SF.Bound_value
    (SF.save SF.entry10 2882343476 200 false BOUND_LOWER 9 0 60 40)
    2882343476 200 false BOUND_LOWER 9 60 40
  /\ payload_kept SF.entry10
       (SF.save SF.entry10 2882343476 200 false BOUND_LOWER 6 0 60 40).
Proof.
  split.
  - apply (proj1 (save_overwrite_iff SF.DEPTH_ENTRY_OFFSET SF.GENERATION_CYCLE
                    SF.GENERATION_MASK SF.Bound_value
                    SF.entry10 2882343476 200 false BOUND_LOWER 9 0 60 40)).
    right. right. left. vm_compute. reflexivity.
  - apply (proj2 (save_overwrite_iff SF.DEPTH_ENTRY_OFFSET SF.GENERATION_CYCLE
                    SF.GENERATION_MASK SF.Bound_value
                    SF.entry10 2882343476 200 false BOUND_LOWER 6 0 60 40)).
    intros [H | [H | [H | H]]].
    + discriminate H.
    + apply H. reflexivity.
    + vm_compute in H. discriminate H.
    + apply H. reflexivity.
Defined.

(** A move given replaces the stored one; no move and the same key
    fragment keep it. *)
Lemma save_move_retention_witness :
  move16 (SF.save SF.entry10 2882343476 200 false BOUND_LOWER 6 21 60 40) = 21
  /\ move16 (SF.save SF.entry10 2882343476 200 false BOUND_LOWER 9 0 60 40)
     = move16 SF.entry10.
Proof.
  split.
  - apply (proj1 (save_move_retention SF.DEPTH_ENTRY_OFFSET SF.GENERATION_CYCLE
                    SF.GENERATION_MASK SF.Bound_value
                    SF.entry10 2882343476 200 false BOUND_LOWER 6 21 60 40)).
    left. discriminate.
  - apply (proj1 (proj2 (save_move_retention SF.DEPTH_ENTRY_OFFSET SF.GENERATION_CYCLE
                    SF.GENERATION_MASK SF.Bound_value
                    SF.entry10 2882343476 200 false BOUND_LOWER 9 0 60 40))).
    intros [H | H]; apply H; reflexivity.
Defined.

(** Both branches of [save] occur. *)
Example save_overwrite_example :
  overwrites SF.DEPTH_ENTRY_OFFSET SF.GENERATION_CYCLE SF.GENERATION_MASK
    SF.entry10 2882343476 false BOUND_LOWER 9 40 = true
  /\ overwrites SF.DEPTH_ENTRY_OFFSET SF.GENERATION_CYCLE SF.GENERATION_MASK
       SF.entry10 2882343476 false BOUND_LOWER 6 40 = false
  /\ SF.save SF.entry10 2882343476 200 false BOUND_LOWER 6 0 60 40 = SF.entry10
  /\ SF.save SF.entry10 2882343476 200 false BOUND_LOWER 6 21 60 40
     = mkTTEntry 4660 13 42 21 100 50
  /\ SF.save SF.entry10 2882343476 200 true BOUND_EXACT 6 0 60 48
     = mkTTEntry 4660 9 55 7 200 60.
Proof. vm_compute. repeat split; reflexivity. Qed.

(** The age is the distance in generations, also across the wrap of the
    8-bit counter: an entry stamped at 248 is one generation (8) old at 0. *)
Example relative_age_example :
  SF.relative_age SF.entry10 40 = 0
  /\ SF.relative_age SF.entry10 48 = 8
  /\ SF.relative_age (mkTTEntry 0 1 (248 + 7) 0 0 0) 0 = 8
  /\ SF.relative_age SF.entry10 (uint8 (40 + 16 + 256)) = 16.
Proof. vm_compute. repeat split; reflexivity. Qed.

Lemma small_table_wf : wf_table SF.ClusterSize SF.small_table.
Proof.
  split; [reflexivity|]. split; [reflexivity|].
  repeat constructor.
Qed.

(** A cluster where the factor matters: slot 0 has depth field 20 and is
    one generation (8) old, value 20 - 2 * 8 = 4; slot 1 has depth field 3
    and is of the current generation, value 3; slot 2 is worth 30.  No key
    fragment is 77, and slot 1 is offered. *)
Definition aging_table : TranspositionTable :=
  mkTable 1
    [ mkCluster [mkTTEntry 1 20 32 0 0 0; mkTTEntry 2 3 40 0 0 0; mkTTEntry 3 30 40 0 0 0] ]
    40.

Lemma aging_table_wf : wf_table SF.ClusterSize aging_table.
Proof.
  split; [reflexivity|]. split; [reflexivity|].
  repeat constructor.
Qed.

Lemma probe_contract_witness :
  exists r er,
    SF.probe aging_table 77 = Some ((0, r), false)
    /\ r = 1%nat
    /\ er = mkTTEntry 2 3 40 0 0 0
    /\ depth8 er - 2 * SF.relative_age er 40 = 3.
Proof.
  destruct (probe_contract SF.GENERATION_CYCLE SF.GENERATION_MASK SF.ClusterSize
              aging_table 77 aging_table_wf) as (c & Hc & _ & Hmiss).
  - reflexivity.
  - split; [discriminate | reflexivity].
  - vm_compute in Hc. injection Hc as <-.
    destruct Hmiss as (r & er & Hres & Hr & Her & Hmin & _).
    { intros [|[|[|i]]] e He; vm_compute in He; try discriminate He;
        injection He as <-; discriminate. }
    pose proof (Hmin 1%nat (mkTTEntry 2 3 40 0 0 0) eq_refl) as H1.
    exists r, er.
    destruct r as [|[|[|r]]].
    + exfalso. vm_compute in Her. injection Her as <-. vm_compute in H1. apply H1. reflexivity.
    + vm_compute in Her. injection Her as <-.
      split; [exact Hres|]. split; [reflexivity|]. split; reflexivity.
    + exfalso. vm_compute in Her. injection Her as <-. vm_compute in H1. apply H1. reflexivity.
    + exfalso. unfold SF.ClusterSize in Hr. lia.
Defined.

(** [probe] on the small table: a hit in slot 1 of cluster 0; a miss in
    cluster 1, where slot 2 is the least valuable (depth 9, one generation
    old); a hit on an empty slot, which is not "found". *)
Example probe_example :
  SF.probe SF.small_table 4660 = Some ((0, 1%nat), true)
  /\ SF.probe SF.small_table (2 ^ 62 + 77) = Some ((1, 2%nat), false)
  /\ SF.probe SF.small_table (2 ^ 16) = Some ((0, 0%nat), false).
Proof. vm_compute. repeat split; reflexivity. Qed.

Lemma sample_table_wf : Forall (wf_cluster SF.ClusterSize) (table SF.sample_table).
Proof. apply Forall_replicate. split; [reflexivity | unfold SF.ClusterSize; lia]. Qed.

(** 1000 clusters, each with one occupied entry of the current generation,
    one empty slot stamped with the current generation and one occupied
    entry of an older generation: only the first counts, 1000 / 3 = 333. *)
Definition mixed_table : TranspositionTable :=
  mkTable 1000
    (replicate 1000
       (mkCluster [mkTTEntry 1 20 41 0 0 0; mkTTEntry 2 0 40 0 0 0; mkTTEntry 3 9 32 0 0 0]))
    40.

Lemma hashfull_contract_witness : SF.hashfull mixed_table = Some 333.
Proof.
  destruct (hashfull_contract SF.GENERATION_MASK SF.ClusterSize mixed_table)
    as (cnt & Hcnt & Hrun & _).
  - unfold mixed_table. cbn [table]. rewrite length_replicate. apply le_n.
  - apply Forall_replicate. split; [reflexivity | unfold SF.ClusterSize; lia].
  - unfold SF.hashfull. rewrite Hrun, Hcnt. vm_compute. reflexivity.
Defined.

(** Two fresh entries in each of 1000 clusters of three: 666 per mille. *)
Example hashfull_example : SF.hashfull SF.sample_table = Some 666.
Proof. vm_compute. reflexivity. Qed.

(** An empty table of 1000 clusters gives 0; one entry of the current
    generation saved into the first slot of each of them gives
    1000 / 3 = 333. *)
Example hashfull_first_slots :
  SF.hashfull (mkTable 1000 (replicate 1000 (zero_cluster SF.ClusterSize)) 40) = Some 0
  /\ SF.hashfull
       (mkTable 1000
          (replicate 1000
             (mkCluster [SF.save zero_entry 77 15 false BOUND_UPPER 5 9 3 40;
                         zero_entry; zero_entry]))
          40)
     = Some (1000 / Z.of_nat SF.ClusterSize).
Proof. vm_compute. split; reflexivity. Qed.

(** On a table of two clusters the contract of the specification gives
    6 / 3 = 2, but the loop of [hashfull] goes on to [table[2]], past the
    end of the table: no result is defined.  The same on a table without
    clusters, where the contract gives 0 and the loop starts at
    [table[0]]. *)
Lemma hashfull_small_table :
  SF.hashfull_spec SF.tiny_table = 2
  /\ SF.hashfull SF.tiny_table = None
  /\ hashfull_clusters SF.GENERATION_MASK SF.ClusterSize SF.tiny_table 0 2 0 = Some 6
  /\ table SF.tiny_table !! 2%nat = None
  /\ SF.hashfull_spec (mkTable 0 [] 40) = 0
  /\ SF.hashfull (mkTable 0 [] 40) = None.
Proof. vm_compute. repeat split; reflexivity. Qed.

(** Ten stale clusters, cleared by three threads: strides [0,3), [3,6) and
    [6,10). *)
Definition stale_table : TranspositionTable :=
  mkTable 10 (replicate 10 SF.stale_cluster) 40.

Example clear_stride_example :
  clear_stride 10 3 0 = (0, 3) /\ clear_stride 10 3 1 = (3, 3)
  /\ clear_stride 10 3 2 = (6, 4).
Proof. vm_compute. repeat split; reflexivity. Qed.

Lemma clear_partition_zero_witness :
  run_tasks SF.ClusterSize 3 stale_table [1; 0; 2]
  = Some (zero_table SF.ClusterSize stale_table)
  /\ SF.clear stale_table (mkThreadPool 3) = Some (zero_table SF.ClusterSize stale_table).
Proof.
  pose proof (clear_partition_zero SF.GENERATION_CYCLE SF.GENERATION_MASK SF.ClusterSize
                SF.sizeof_Cluster SF.Heap SF.alloc SF.free
                stale_table (mkThreadPool 3) [1; 0; 2]) as H.
  destruct H as (_ & _ & Hrun & Hclear & _).
  - simpl. lia.
  - simpl. lia.
  - reflexivity.
  - apply perm_swap.
  - split; [exact Hrun | exact Hclear].
Defined.

(** One megabyte in clusters of 32 bytes: 32768 clusters. *)
Lemma resize_cluster_count_witness :
  exists tt',
    SF.resize stale_table (2 ^ 30) 1 (mkThreadPool 3)
    = Returned tt' (2 ^ 30 + 320 - 2 ^ 20)
    /\ clusterCount tt' = 1 * 1024 * 1024 / SF.sizeof_Cluster
    /\ Z.of_nat (length (table tt')) = 1 * 1024 * 1024 / SF.sizeof_Cluster.
Proof.
  apply (resize_cluster_count SF.ClusterSize SF.sizeof_Cluster SF.Heap SF.alloc SF.free
           stale_table (2 ^ 30) 1 (mkThreadPool 3)
           (replicate (Z.to_nat 32768) SF.stale_cluster)).
  - exact alloc_sized_SF.
  - reflexivity.
  - simpl. lia.
  - lia.
  - reflexivity.
  - reflexivity.
Defined.

(** The operations are not defined on every input.  On a table of two
    clusters, well formed as it is, the loop of [hashfull] runs past the end
    at [table[2]]; on a table without clusters [probe] has no cluster to look
    at; with its assertions active [save] stops at a depth equal to
    [DEPTH_ENTRY_OFFSET] when it overwrites. *)
Lemma operations_outside_contract :
  wf_table SF.ClusterSize SF.tiny_table
  /\ SF.hashfull SF.tiny_table = None
  /\ table SF.tiny_table !! 2%nat = None
  /\ SF.probe (mkTable 0 [] 40) 4660 = None
  /\ save_checked SF.DEPTH_ENTRY_OFFSET SF.GENERATION_CYCLE SF.GENERATION_MASK
       SF.Bound_value SF.entry10 2882343476 200 false BOUND_EXACT (-3) 0 60 40
     = None.
Proof.
  split.
  { split; [reflexivity|]. split; [reflexivity|]. repeat constructor. }
  vm_compute. repeat split; reflexivity.
Qed.

(** A heap of 64 bytes cannot serve one megabyte: [resize] prints the
    diagnostic and exits with status 1, the heap holding the 64 bytes and
    the 320 of the table it had freed. *)
Lemma operations_infallible_witness :
  SF.resize stale_table 64 1 (mkThreadPool 3)
  = Exited 1 ("Failed to allocate 1MB for transposition table."
                ++ String (Ascii.ascii_of_nat 10) EmptyString)%string 384
  /\ EXIT_FAILURE <> 0.
Proof.
  apply (proj1 (operations_infallible SF.DEPTH_ENTRY_OFFSET SF.GENERATION_CYCLE
                  SF.GENERATION_MASK SF.ClusterSize SF.sizeof_Cluster SF.Bound_value
                  SF.Heap SF.alloc SF.free)
               stale_table 64 1 (mkThreadPool 3) 384).
  reflexivity.
Defined.

(** ** The further properties at concrete inputs *)

Lemma save_occupied_witness :
  depth8 (SF.save SF.entry10 2882343476 200 false BOUND_LOWER 6 0 60 40) <> 0.
Proof.
  refine (proj1 (save_occupied SF.DEPTH_ENTRY_OFFSET SF.GENERATION_CYCLE SF.GENERATION_MASK
                   SF.Bound_value SF.entry10 2882343476 200 false BOUND_LOWER 6 0 60 40 _)).
  split; reflexivity.
Defined.

Lemma save_not_stale_witness :
  SF.relative_age (SF.save SF.entry10 77 200 true BOUND_UPPER 9 0 60 48) 48 = 0.
Proof.
  refine (proj1 (save_not_stale SF.DEPTH_ENTRY_OFFSET SF.GENERATION_CYCLE SF.GENERATION_MASK
                   SF.Bound_value SF.entry10 77 200 true BOUND_UPPER 9 0 60 48
                   _ _ _ _ _)).
  - reflexivity.
  - reflexivity.
  - lia.
  - reflexivity.
  - simpl. lia.
Defined.

Lemma entry10_wf : wf_entry SF.entry10.
Proof. unfold wf_entry. simpl. lia. Qed.

Lemma save_keeps_ranges_witness :
  wf_entry (SF.save SF.entry10 (2 ^ 63 + 5) (-40000) true BOUND_EXACT 200 65535 70000 248).
Proof.
  apply (save_keeps_ranges SF.DEPTH_ENTRY_OFFSET SF.GENERATION_CYCLE SF.GENERATION_MASK
           SF.Bound_value SF.entry10 (2 ^ 63 + 5) (-40000) true BOUND_EXACT 200 65535
           70000 248 entry10_wf).
  lia.
Defined.

Lemma save_depth_drop_witness :
  depth8 SF.entry10
  - depth8 (SF.save SF.entry10 2882343476 200 false BOUND_UPPER 7 0 60 40)
  <= 3 + 2 * b2z false.
Proof.
  apply (save_depth_drop SF.DEPTH_ENTRY_OFFSET SF.GENERATION_CYCLE SF.GENERATION_MASK
           SF.Bound_value SF.entry10 2882343476 200 false BOUND_UPPER 7 0 60 40).
  - split; reflexivity.
  - discriminate.
  - reflexivity.
  - reflexivity.
Defined.

(** Depth 7 against 10 is the deepest drop: the depth field goes from 13
    to 10. *)
Example save_depth_drop_example :
  depth8 (SF.save SF.entry10 2882343476 200 false BOUND_UPPER 7 0 60 40) = 10
  /\ depth8 (SF.save SF.entry10 2882343476 200 false BOUND_UPPER 6 0 60 40) = 13.
Proof. vm_compute. split; reflexivity. Qed.

Lemma relative_age_generation_only_witness :
  SF.relative_age SF.entry10 16 = (16 - Z.land (genBound8 SF.entry10) SF.GENERATION_MASK) mod 256
  /\ SF.relative_age SF.entry10 16 mod 8 = 0.
Proof.
  pose proof (relative_age_generation_only SF.GENERATION_CYCLE SF.GENERATION_MASK
                SF.entry10 SF.entry10 16) as H.
  destruct H as (_ & H1 & H2 & _).
  - reflexivity.
  - reflexivity.
  - simpl. lia.
  - simpl. lia.
  - lia.
  - reflexivity.
  - split; [exact H1 | exact H2].
Defined.

Lemma probe_pointer_valid_witness :
  fst (0, 1%nat) = first_entry SF.small_table 4660
  /\ 0 <= fst (0, 1%nat) < clusterCount SF.small_table
  /\ (snd (0, 1%nat) < SF.ClusterSize)%nat
  /\ exists e, entry_at SF.small_table (0, 1%nat) = Some e
               /\ (true = true <-> key16 e = uint16 4660 /\ depth8 e <> 0).
Proof.
  apply (probe_pointer_valid SF.GENERATION_CYCLE SF.GENERATION_MASK SF.ClusterSize
           SF.small_table 4660 (0, 1%nat) true small_table_wf).
  - reflexivity.
  - split; [discriminate | reflexivity].
  - reflexivity.
Defined.

(** A miss in cluster 1 of the small table, slot 2 offered; after the
    [save] through that pointer the fingerprint is found there. *)
Lemma probe_save_probe_witness :
  exists e tt',
    entry_at SF.small_table (1, 2%nat) = Some e
    /\ save_at SF.DEPTH_ENTRY_OFFSET SF.GENERATION_CYCLE SF.GENERATION_MASK SF.Bound_value
         SF.small_table (1, 2%nat) (2 ^ 62 + 77) 150 false BOUND_LOWER 12 33 140 40
       = Some tt'
    /\ wf_table SF.ClusterSize tt'
    /\ clusterCount tt' = clusterCount SF.small_table
    /\ SF.probe tt' (2 ^ 62 + 77) = Some ((1, 2%nat), true)
    /\ entry_at tt' (1, 2%nat)
       = Some (SF.save e (2 ^ 62 + 77) 150 false BOUND_LOWER 12 33 140 40)
    /\ (false = false ->
        payload_written SF.DEPTH_ENTRY_OFFSET SF.Bound_value
          (SF.save e (2 ^ 62 + 77) 150 false BOUND_LOWER 12 33 140 40)
          (2 ^ 62 + 77) 150 false BOUND_LOWER 12 140 40).
Proof.
  apply (probe_save_probe SF.DEPTH_ENTRY_OFFSET SF.GENERATION_CYCLE SF.GENERATION_MASK
           SF.ClusterSize SF.Bound_value SF.small_table (2 ^ 62 + 77) (1, 2%nat) false
           150 false BOUND_LOWER 12 33 140 40 small_table_wf).
  - reflexivity.
  - split; [discriminate | reflexivity].
  - split; reflexivity.
  - reflexivity.
Defined.

Example probe_save_probe_example :
  (tt' ← save_at SF.DEPTH_ENTRY_OFFSET SF.GENERATION_CYCLE SF.GENERATION_MASK SF.Bound_value
          SF.small_table (1, 2%nat) (2 ^ 62 + 77) 150 false BOUND_LOWER 12 33 140 40;
   entry_at tt' (1, 2%nat))
  = Some (mkTTEntry 77 15 42 33 150 140).
Proof. vm_compute. reflexivity. Qed.

(** A miss in cluster 0 of the small table, which holds two empty slots
    and the entry of depth 10: the first empty slot is offered. *)
Lemma probe_spares_fresh_witness :
  depth8 zero_entry = 0 \/ SF.relative_age zero_entry (generation8 SF.small_table) <> 0.
Proof.
  apply (probe_spares_fresh SF.GENERATION_CYCLE SF.GENERATION_MASK SF.ClusterSize
           SF.small_table 5 (0, 0%nat) false zero_entry 2 zero_entry small_table_wf).
  - reflexivity.
  - split; [discriminate | reflexivity].
  - reflexivity.
  - reflexivity.
  - discriminate.
  - reflexivity.
  - reflexivity.
  - simpl. lia.
Defined.

(** 1000 clusters of three entries of the current generation: 1000 per
    mille. *)
Definition full_table : TranspositionTable :=
  mkTable 1000
    (replicate 1000
       (mkCluster [mkTTEntry 1 20 41 0 0 0; mkTTEntry 2 9 46 0 0 0; mkTTEntry 3 9 42 0 0 0]))
    40.

Lemma hashfull_extremes_witness : SF.hashfull full_table = Some 1000.
Proof.
  refine (proj2 (hashfull_extremes SF.GENERATION_MASK SF.ClusterSize full_table _ _) _).
  - unfold full_table. cbn [table]. rewrite length_replicate. apply le_n.
  - apply Forall_replicate. split; [reflexivity | unfold SF.ClusterSize; lia].
  - apply Forall_take. apply Forall_replicate. repeat constructor.
Defined.

Definition stale_table_1000 : TranspositionTable :=
  mkTable 1000 (replicate 1000 SF.stale_cluster) 40.

Lemma hashfull_after_clear_witness :
  exists tt', SF.clear stale_table_1000 (mkThreadPool 7) = Some tt'
              /\ SF.hashfull tt' = Some 0.
Proof.
  apply (hashfull_after_clear SF.GENERATION_MASK SF.ClusterSize stale_table_1000
           (mkThreadPool 7)).
  - simpl. lia.
  - simpl. lia.
  - unfold stale_table_1000. cbn [table clusterCount]. rewrite length_replicate. reflexivity.
  - unfold SF.ClusterSize. lia.
Defined.

Lemma clear_strides_adjacent_witness :
  fst (clear_stride 10 3 0) = 0
  /\ (forall i, 0 <= i < 3 - 1 ->
        fst (clear_stride 10 3 (i + 1))
        = fst (clear_stride 10 3 i) + snd (clear_stride 10 3 i))
  /\ fst (clear_stride 10 3 (3 - 1)) + snd (clear_stride 10 3 (3 - 1)) = 10
  /\ (forall i, 0 <= i < 3 -> 10 / 3 <= snd (clear_stride 10 3 i) < 10 / 3 + 3).
Proof. apply (clear_strides_adjacent 10 3); lia. Defined.

(** An empty pool: the stale clusters stay. *)
Lemma clear_empty_pool_witness :
  SF.clear stale_table (mkThreadPool 0) = Some stale_table.
Proof.
  refine (proj1 (clear_empty_pool SF.ClusterSize SF.sizeof_Cluster SF.Heap SF.alloc SF.free
                   stale_table (mkThreadPool 0) _)).
  reflexivity.
Defined.

Lemma resize_count_wraps_witness :
  resize_count SF.sizeof_Cluster (2 ^ 44 + 1) = resize_count SF.sizeof_Cluster 1
  /\ resize_count SF.sizeof_Cluster 1 = 32768.
Proof.
  pose proof (resize_count_wraps SF.sizeof_Cluster 1) as H.
  destruct H as (_ & H & _).
  - reflexivity.
  - lia.
  - split; [rewrite Z.add_comm; exact H | reflexivity].
Defined.

End TT.

(** * Static evaluation: [Eval::evaluate] of [src/evaluate.cpp] *)

Module Evaluation.

(** [std::clamp(v, lo, hi)]. *)
Definition std_clamp (v lo hi : Z) : Z :=
  if v <? lo then lo else if hi <? v then hi else v.

(** [enum Color] of [types.h], and [operator~] on it. *)
Inductive Color : Type := WHITE | BLACK.

Definition flip (c : Color) : Color :=
  match c with WHITE => BLACK | BLACK => WHITE end.

(** Declared in [evaluate.h]. *)
Definition SmallNetThreshold : Z := 1136.
Definition PsqtOnlyThreshold : Z := 2656.

Section Evaluate.

(** [Position] of [position.h], and what [evaluate] asks of it. *)
Variable Position : Type.
Variable side_to_move : Position -> Color.
Variable checkers : Position -> Z.
Variable count_PAWN : Position -> Color -> Z.
Variable count_PAWN_all : Position -> Z.
Variable non_pawn_material_of : Position -> Color -> Z.
Variable non_pawn_material : Position -> Z.
Variable rule50_count : Position -> Z.

(** The networks: [evaluate(pos, adjusted, &complexity, psqtOnly)] yields the
    value and the complexity it stores through the pointer. *)
Variable Networks : Type.
Variable small_evaluate : Networks -> Position -> bool -> bool -> Z * Z.
Variable big_evaluate : Networks -> Position -> bool -> bool -> Z * Z.

(** Constants of [types.h]. *)
Variable PawnValue : Z.
Variable VALUE_TB_WIN_IN_MAX_PLY : Z.
Variable VALUE_TB_LOSS_IN_MAX_PLY : Z.

(** The assertion at the top of [evaluate]. *)
Definition evaluate_asserts (pos : Position) : Prop := checkers pos = 0.

Definition simple_eval (pos : Position) (c : Color) : Z :=
  PawnValue * (count_PAWN pos c - count_PAWN pos (flip c))
  + (non_pawn_material_of pos c - non_pawn_material_of pos (flip c)).

(** [RandomEval] and [WaitMs] are the two globals; [r] is the integer part
    of the sample drawn from the normal distribution, which is all of the
    sample that [Value(r)] keeps (truncation commutes with a clamp between
    integers).  [sleep_for] only delays.  The arithmetic is that of [int]
    without overflow; division truncates. *)
Definition evaluate (networks : Networks) (pos : Position) (optimism : Z)
           (RandomEval WaitMs r : Z) : Z :=
  let simpleEval := simple_eval pos (side_to_move pos) in
  let smallNet := Z.abs simpleEval >? SmallNetThreshold in
  let psqtOnly := Z.abs simpleEval >? PsqtOnlyThreshold in
  let '(nnue, nnueComplexity) :=
    if smallNet then small_evaluate networks pos true psqtOnly
    else big_evaluate networks pos true false in
  let optimism1 :=
    optimism + Z.quot (optimism * (nnueComplexity + Z.abs (simpleEval - nnue))) 524 in
  let nnue1 :=
    nnue - Z.quot (nnue * (nnueComplexity + Z.abs (simpleEval - nnue))) 31950 in
  let npm := Z.quot (non_pawn_material pos) 64 in
  let v0 :=
    Z.quot (nnue1 * (927 + npm + 9 * count_PAWN_all pos) + optimism1 * (159 + npm)) 1000 in
  let shuffling := rule50_count pos in
  let v1 := Z.quot (v0 * (195 - shuffling)) 228 in
  let v2 :=
    if negb (RandomEval =? 0) || negb (WaitMs =? 0)
    then
      let r1 := std_clamp r (VALUE_TB_LOSS_IN_MAX_PLY + 1) (VALUE_TB_WIN_IN_MAX_PLY - 1) in
      Z.quot (RandomEval * r1 + (100 - RandomEval) * v1) 100
    else v1 in
  std_clamp v2 (VALUE_TB_LOSS_IN_MAX_PLY + 1) (VALUE_TB_WIN_IN_MAX_PLY - 1).

(** A clamp between ordered bounds lands between them. *)
Lemma std_clamp_range (v lo hi : Z) : lo <= hi -> lo <= std_clamp v lo hi <= hi.
Proof.
  intros H. unfold std_clamp.
  destruct (v <? lo) eqn:E1; [lia|].
  destruct (hi <? v) eqn:E2; [lia|].
  apply Z.ltb_ge in E1, E2. lia.
Qed.

(** C10.  For every position not in check, every optimism, and whatever the
    networks return, [evaluate] returns a value [v] with
    [VALUE_TB_LOSS_IN_MAX_PLY + 1 <= v <= VALUE_TB_WIN_IN_MAX_PLY - 1]: it
    never reaches the tablebase range, also when the RandomEval blend is
    active. *)
Theorem evaluate_outside_tb_range (networks : Networks) (pos : Position)
        (optimism RandomEval WaitMs r : Z) :
  VALUE_TB_LOSS_IN_MAX_PLY + 1 <= VALUE_TB_WIN_IN_MAX_PLY - 1 ->
  evaluate_asserts pos ->
  VALUE_TB_LOSS_IN_MAX_PLY + 1
  <= evaluate networks pos optimism RandomEval WaitMs r
  <= VALUE_TB_WIN_IN_MAX_PLY - 1.
Proof.
  intros Hbounds _. unfold evaluate.
  destruct (if Z.abs (simple_eval pos (side_to_move pos)) >? SmallNetThreshold
            then small_evaluate networks pos true
                   (Z.abs (simple_eval pos (side_to_move pos)) >? PsqtOnlyThreshold)
            else big_evaluate networks pos true false) as [nnue nnueComplexity].
  apply std_clamp_range, Hbounds.
Qed.

(** ** Further properties of [simple_eval] and [evaluate] *)

(** The value of [evaluate] before the damping by the fifty-move counter:
    the blend of the network output and the optimism. *)
Definition evaluate_blend (networks : Networks) (pos : Position) (optimism : Z) : Z :=
  let simpleEval := simple_eval pos (side_to_move pos) in
  let smallNet := Z.abs simpleEval >? SmallNetThreshold in
  let psqtOnly := Z.abs simpleEval >? PsqtOnlyThreshold in
  let '(nnue, nnueComplexity) :=
    if smallNet then small_evaluate networks pos true psqtOnly
    else big_evaluate networks pos true false in
  let optimism1 :=
    optimism + Z.quot (optimism * (nnueComplexity + Z.abs (simpleEval - nnue))) 524 in
  let nnue1 :=
    nnue - Z.quot (nnue * (nnueComplexity + Z.abs (simpleEval - nnue))) 31950 in
  let npm := Z.quot (non_pawn_material pos) 64 in
  Z.quot (nnue1 * (927 + npm + 9 * count_PAWN_all pos) + optimism1 * (159 + npm)) 1000.

(** [evaluate] in terms of the blend. *)
Lemma evaluate_from_blend (networks : Networks) (pos : Position)
      (optimism RandomEval WaitMs r : Z) :
  evaluate networks pos optimism RandomEval WaitMs r
  = let v1 := Z.quot (evaluate_blend networks pos optimism * (195 - rule50_count pos)) 228 in
    std_clamp
      (if negb (RandomEval =? 0) || negb (WaitMs =? 0)
       then Z.quot (RandomEval
                    * std_clamp r (VALUE_TB_LOSS_IN_MAX_PLY + 1) (VALUE_TB_WIN_IN_MAX_PLY - 1)
                    + (100 - RandomEval) * v1) 100
       else v1)
      (VALUE_TB_LOSS_IN_MAX_PLY + 1) (VALUE_TB_WIN_IN_MAX_PLY - 1).
Proof.
  unfold evaluate, evaluate_blend.
  destruct (if Z.abs (simple_eval pos (side_to_move pos)) >? SmallNetThreshold
            then small_evaluate networks pos true
                   (Z.abs (simple_eval pos (side_to_move pos)) >? PsqtOnlyThreshold)
            else big_evaluate networks pos true false) as [nnue nnueComplexity].
  reflexivity.
Qed.

Lemma std_clamp_fixed (v lo hi : Z) : lo <= v <= hi -> std_clamp v lo hi = v.
Proof.
  intros H. unfold std_clamp.
  replace (v <? lo) with false by (symmetry; apply Z.ltb_ge; lia).
  replace (hi <? v) with false by (symmetry; apply Z.ltb_ge; lia).
  reflexivity.
Qed.

(** X16.  [simple_eval] is antisymmetric in the colour: what one side is
    ahead by, the other is behind by. *)
Theorem simple_eval_antisymmetric (pos : Position) (c : Color) :
  simple_eval pos (flip c) = - simple_eval pos c.
Proof. unfold simple_eval. destruct c; simpl; lia. Qed.

(** X17.  With [RandomEval] at 0 the sample drawn does not reach the
    result: a non-zero [WaitMs] only delays, and the value is the one of
    the plain evaluation. *)
Theorem evaluate_wait_only (networks : Networks) (pos : Position)
        (optimism WaitMs r r' : Z) :
  evaluate networks pos optimism 0 WaitMs r = evaluate networks pos optimism 0 0 r'.
Proof.
  rewrite !evaluate_from_blend. cbv zeta. simpl (negb (0 =? 0)). simpl orb.
  destruct (negb (WaitMs =? 0)); [|reflexivity].
  f_equal. rewrite Z.mul_0_l, Z.add_0_l. change (100 - 0) with 100.
  rewrite Z.mul_comm. apply Z.quot_mul. discriminate.
Qed.

(** X18.  With [RandomEval] at 100 the position does not reach the result:
    [evaluate] returns the sample, clamped to the range outside the
    tablebase scores, whatever the networks and the position say. *)
Theorem evaluate_fully_random (networks : Networks) (pos : Position)
        (optimism WaitMs r : Z) :
  VALUE_TB_LOSS_IN_MAX_PLY + 1 <= VALUE_TB_WIN_IN_MAX_PLY - 1 ->
  evaluate networks pos optimism 100 WaitMs r
  = std_clamp r (VALUE_TB_LOSS_IN_MAX_PLY + 1) (VALUE_TB_WIN_IN_MAX_PLY - 1).
Proof.
  intros Hb. rewrite evaluate_from_blend. cbv zeta.
  simpl (negb (100 =? 0)). simpl orb.
  change (100 - 100) with 0. rewrite Z.mul_0_l, Z.add_0_r.
  rewrite Z.mul_comm, Z.quot_mul by discriminate.
  apply std_clamp_fixed, std_clamp_range, Hb.
Qed.

(** X19.  Without the random blend, the damping by the fifty-move counter
    never enlarges the blended value and never changes its sign, for a
    counter up to 195; at 195 the evaluation is 0. *)
Theorem evaluate_damping (networks : Networks) (pos : Position) (optimism r : Z) :
  VALUE_TB_LOSS_IN_MAX_PLY + 1 <= 0 <= VALUE_TB_WIN_IN_MAX_PLY - 1 ->
  0 <= rule50_count pos <= 195 ->
  Z.abs (evaluate networks pos optimism 0 0 r)
  <= Z.abs (evaluate_blend networks pos optimism)
  /\ (0 <= evaluate_blend networks pos optimism ->
      0 <= evaluate networks pos optimism 0 0 r)
  /\ (evaluate_blend networks pos optimism <= 0 ->
      evaluate networks pos optimism 0 0 r <= 0)
  /\ (rule50_count pos = 195 -> evaluate networks pos optimism 0 0 r = 0).
Proof.
  intros Hb Hr. rewrite evaluate_from_blend. cbv zeta. simpl.
  set (v := evaluate_blend networks pos optimism).
  set (k := 195 - rule50_count pos).
  assert (Hk : 0 <= k <= 195) by (unfold k; lia).
  set (q := Z.quot (v * k) 228).
  assert (Hq : Z.abs q <= Z.abs v /\ (0 <= v -> 0 <= q) /\ (v <= 0 -> q <= 0)).
  { unfold q. destruct (Z_le_gt_dec 0 v) as [Hv | Hv].
    - assert (0 <= Z.quot (v * k) 228) by (apply Z.quot_pos; nia).
      assert (Z.quot (v * k) 228 <= v).
      { rewrite Z.quot_div_nonneg by nia. apply Z.div_le_upper_bound; nia. }
      lia.
    - assert (Hopp : Z.quot (v * k) 228 = - Z.quot (- v * k) 228).
      { rewrite <- Z.quot_opp_l by discriminate. f_equal. lia. }
      assert (0 <= Z.quot (- v * k) 228) by (apply Z.quot_pos; nia).
      assert (Z.quot (- v * k) 228 <= - v).
      { rewrite Z.quot_div_nonneg by nia. apply Z.div_le_upper_bound; nia. }
      lia. }
  destruct Hq as (Habs & Hpos & Hneg).
  unfold std_clamp.
  destruct (q <? VALUE_TB_LOSS_IN_MAX_PLY + 1) eqn:E1;
    [apply Z.ltb_lt in E1 | apply Z.ltb_ge in E1;
       destruct (VALUE_TB_WIN_IN_MAX_PLY - 1 <? q) eqn:E2;
       [apply Z.ltb_lt in E2 | apply Z.ltb_ge in E2]].
  - repeat split; try lia. intros H195. exfalso.
    unfold q, k in E1. rewrite H195 in E1.
    replace (195 - 195) with 0 in E1 by lia. rewrite Z.mul_0_r in E1.
    change (Z.quot 0 228) with 0 in E1. lia.
  - repeat split; try lia. intros H195. exfalso.
    unfold q, k in E2. rewrite H195 in E2.
    replace (195 - 195) with 0 in E2 by lia. rewrite Z.mul_0_r in E2.
    change (Z.quot 0 228) with 0 in E2. lia.
  - repeat split; try lia. intros H195.
    unfold q, k. rewrite H195.
    replace (195 - 195) with 0 by lia. rewrite Z.mul_0_r. reflexivity.
Qed.

End Evaluate.

(** ** Which network [evaluate] consults *)

Section NetworkChoice.

Variable Position : Type.
Variable side_to_move : Position -> Color.
Variable count_PAWN : Position -> Color -> Z.
Variable count_PAWN_all : Position -> Z.
Variable non_pawn_material_of : Position -> Color -> Z.
Variable non_pawn_material : Position -> Z.
Variable rule50_count : Position -> Z.
Variable Networks : Type.
Variable small_evaluate small_evaluate' : Networks -> Position -> bool -> bool -> Z * Z.
Variable big_evaluate big_evaluate' : Networks -> Position -> bool -> bool -> Z * Z.
Variable PawnValue : Z.
Variable VALUE_TB_WIN_IN_MAX_PLY : Z.
Variable VALUE_TB_LOSS_IN_MAX_PLY : Z.

(** X20.  [evaluate] consults one network, once: the small one when the
    material imbalance exceeds [SmallNetThreshold] in absolute value, asked
    for the piece-square part only when it also exceeds [PsqtOnlyThreshold];
    the big one otherwise, never for the piece-square part only.  Two pairs
    of networks that agree on that one call give the same evaluation. *)
Theorem evaluate_one_network (networks : Networks) (pos : Position)
        (optimism RandomEval WaitMs r : Z) :
  (if Z.abs (simple_eval Position count_PAWN non_pawn_material_of PawnValue
               pos (side_to_move pos)) >? SmallNetThreshold
   then small_evaluate networks pos true
          (Z.abs (simple_eval Position count_PAWN non_pawn_material_of PawnValue
                    pos (side_to_move pos)) >? PsqtOnlyThreshold)
        = small_evaluate' networks pos true
            (Z.abs (simple_eval Position count_PAWN non_pawn_material_of PawnValue
                      pos (side_to_move pos)) >? PsqtOnlyThreshold)
   else big_evaluate networks pos true false = big_evaluate' networks pos true false) ->
  evaluate Position side_to_move count_PAWN count_PAWN_all non_pawn_material_of
    non_pawn_material rule50_count Networks small_evaluate big_evaluate
    PawnValue VALUE_TB_WIN_IN_MAX_PLY VALUE_TB_LOSS_IN_MAX_PLY
    networks pos optimism RandomEval WaitMs r
  = evaluate Position side_to_move count_PAWN count_PAWN_all non_pawn_material_of
      non_pawn_material rule50_count Networks small_evaluate' big_evaluate'
      PawnValue VALUE_TB_WIN_IN_MAX_PLY VALUE_TB_LOSS_IN_MAX_PLY
      networks pos optimism RandomEval WaitMs r.
Proof.
  intros H. unfold evaluate.
  destruct (Z.abs (simple_eval Position count_PAWN non_pawn_material_of PawnValue
                     pos (side_to_move pos)) >? SmallNetThreshold);
    rewrite H; reflexivity.
Qed.

End NetworkChoice.

(** ** [evaluate] on a concrete position *)

Module SF.

Record Position : Type := mkPosition {
  side_to_move : Color;
  checkers : Z;
  pawns : Color -> Z;
  material : Color -> Z;
  rule50_count : Z
}.

Definition PawnValue : Z := 208.
Definition MAX_PLY : Z := 246.
Definition VALUE_MATE : Z := 32000.
Definition VALUE_MATE_IN_MAX_PLY : Z := VALUE_MATE - MAX_PLY.
Definition VALUE_TB : Z := VALUE_MATE_IN_MAX_PLY - 1.
Definition VALUE_TB_WIN_IN_MAX_PLY : Z := VALUE_TB - MAX_PLY.
Definition VALUE_TB_LOSS_IN_MAX_PLY : Z := - VALUE_TB_WIN_IN_MAX_PLY.

(** Stand-ins for the networks. *)
Definition small_net (_ : unit) (pos : Position) (_ psqtOnly : bool) : Z * Z :=
  (if psqtOnly then 20000 else 700, 30).
Definition big_net (_ : unit) (pos : Position) (_ _ : bool) : Z * Z := (45, 12).

Definition evaluate : unit -> Position -> Z -> Z -> Z -> Z -> Z :=
  Evaluation.evaluate Position side_to_move pawns
    (fun pos => pawns pos WHITE + pawns pos BLACK)
    material
    (fun pos => material pos WHITE + material pos BLACK)
    rule50_count unit small_net big_net
    PawnValue VALUE_TB_WIN_IN_MAX_PLY VALUE_TB_LOSS_IN_MAX_PLY.

(** White to move, a queen and two rooks up. *)
Definition winning : Position :=
  mkPosition WHITE 0
    (fun c => match c with WHITE => 6 | BLACK => 4 end)
    (fun c => match c with WHITE => 8000 | BLACK => 3000 end)
    3.

Definition level : Position :=
  mkPosition BLACK 0 (fun _ => 8) (fun _ => 7000) 10.

End SF.

Lemma evaluate_outside_tb_range_witness :
  SF.VALUE_TB_LOSS_IN_MAX_PLY + 1
  <= SF.evaluate tt SF.winning 100 30 5 (-50000)
  <= SF.VALUE_TB_WIN_IN_MAX_PLY - 1.
Proof.
  apply (evaluate_outside_tb_range SF.Position SF.side_to_move SF.checkers SF.pawns
           (fun pos => SF.pawns pos WHITE + SF.pawns pos BLACK)
           SF.material
           (fun pos => SF.material pos WHITE + SF.material pos BLACK)
           SF.rule50_count unit SF.small_net SF.big_net
           SF.PawnValue SF.VALUE_TB_WIN_IN_MAX_PLY SF.VALUE_TB_LOSS_IN_MAX_PLY).
  - vm_compute. discriminate.
  - reflexivity.
Defined.

(** A won position evaluates to 11658; an extreme optimism is cut to
    31506 by the final clamp; a level position gets 47; with RandomEval at
    100 the value is the clamped sample, and at 50 the mean of both. *)
Example evaluate_example :
  SF.evaluate tt SF.winning 100 0 0 0 = 11658
  /\ SF.evaluate tt SF.winning 1000000 0 0 0 = 31506
  /\ SF.evaluate tt SF.level 0 0 0 0 = 47
  /\ SF.evaluate tt SF.level 0 100 0 (-50000) = -31506
  /\ SF.evaluate tt SF.level 0 100 0 123 = 123
  /\ SF.evaluate tt SF.level 0 50 7 123 = 85.
Proof. vm_compute. repeat split; reflexivity. Qed.

Lemma evaluate_fully_random_witness :
  SF.evaluate tt SF.winning 100 100 0 (-50000)
  = std_clamp (-50000) (SF.VALUE_TB_LOSS_IN_MAX_PLY + 1) (SF.VALUE_TB_WIN_IN_MAX_PLY - 1).
Proof.
  apply (evaluate_fully_random SF.Position SF.side_to_move SF.pawns
           (fun pos => SF.pawns pos WHITE + SF.pawns pos BLACK)
           SF.material
           (fun pos => SF.material pos WHITE + SF.material pos BLACK)
           SF.rule50_count unit SF.small_net SF.big_net
           SF.PawnValue SF.VALUE_TB_WIN_IN_MAX_PLY SF.VALUE_TB_LOSS_IN_MAX_PLY).
  vm_compute. discriminate.
Defined.

Lemma evaluate_damping_witness :
  Z.abs (SF.evaluate tt SF.winning 100 0 0 7)
  <= Z.abs (evaluate_blend SF.Position SF.side_to_move SF.pawns
              (fun pos => SF.pawns pos WHITE + SF.pawns pos BLACK)
              SF.material
              (fun pos => SF.material pos WHITE + SF.material pos BLACK)
              unit SF.small_net SF.big_net SF.PawnValue tt SF.winning 100).
Proof.
  refine (proj1 (evaluate_damping SF.Position SF.side_to_move SF.pawns
           (fun pos => SF.pawns pos WHITE + SF.pawns pos BLACK)
           SF.material
           (fun pos => SF.material pos WHITE + SF.material pos BLACK)
           SF.rule50_count unit SF.small_net SF.big_net
           SF.PawnValue SF.VALUE_TB_WIN_IN_MAX_PLY SF.VALUE_TB_LOSS_IN_MAX_PLY
           tt SF.winning 100 7 _ _)).
  - vm_compute. split; discriminate.
  - vm_compute. split; discriminate.
Defined.

(** The won position is evaluated by the small network alone: another big
    network changes nothing. *)
Lemma evaluate_one_network_witness :
  SF.evaluate tt SF.winning 100 0 0 0
  = evaluate SF.Position SF.side_to_move SF.pawns
      (fun pos => SF.pawns pos WHITE + SF.pawns pos BLACK)
      SF.material
      (fun pos => SF.material pos WHITE + SF.material pos BLACK)
      SF.rule50_count unit SF.small_net (fun _ _ _ _ => (-9000, 0))
      SF.PawnValue SF.VALUE_TB_WIN_IN_MAX_PLY SF.VALUE_TB_LOSS_IN_MAX_PLY
      tt SF.winning 100 0 0 0.
Proof.
  apply (evaluate_one_network SF.Position SF.side_to_move SF.pawns
           (fun pos => SF.pawns pos WHITE + SF.pawns pos BLACK)
           SF.material
           (fun pos => SF.material pos WHITE + SF.material pos BLACK)
           SF.rule50_count unit SF.small_net SF.small_net SF.big_net
           (fun _ _ _ _ => (-9000, 0))
           SF.PawnValue SF.VALUE_TB_WIN_IN_MAX_PLY SF.VALUE_TB_LOSS_IN_MAX_PLY).
  reflexivity.
Defined.

End Evaluation.

(** * Loading and verifying the networks: [NNUE::load_networks] and
      [NNUE::verify] of [src/evaluate.cpp] *)

Module NNUE.

Local Open Scope string_scope.

(** [enum NetSize] and [struct EvalFile] of the NNUE headers. *)
Inductive NetSize : Type := Big | Small.

Record EvalFile : Type := mkEvalFile {
  optionName : string;
  defaultName : string;
  current : string;
  netDescription : string
}.

(** [EvalFiles], an unordered map from [NetSize], as the list of its
    entries in the order the range-[for] visits them. *)
Definition EvalFiles : Type := list (NetSize * EvalFile).

(** How [verify] ends, with the lines it wrote to [sync_cout]. *)
Inductive VerifyResult : Type :=
| Verified (out : list string)
| Terminated (status : Z) (out : list string).

Section Load.

(** [options[name]] converted to [std::string]. *)
Variable options : string -> string.
(** [load_eval] on the stream of the file at a path, and on the stream
    over the network embedded in the binary: the description of the
    network read, if any. *)
Variable load_eval_file : string -> NetSize -> option string.
Variable load_eval_embedded : NetSize -> option string.

(** The name asked for: the option, or the default when it is empty. *)
Definition user_eval_file (evalFile : EvalFile) : string :=
  if String.eqb (options (optionName evalFile)) ""
  then defaultName evalFile
  else options (optionName evalFile).

(** [evalFile.current = user_eval_file; evalFile.netDescription = description.value()]. *)
Definition loaded (evalFile : EvalFile) (file description : string) : EvalFile :=
  mkEvalFile (optionName evalFile) (defaultName evalFile) file description.

(** The body of the loop over [dirs]. *)
Definition try_directory (netSize : NetSize) (file : string) (evalFile : EvalFile)
           (directory : string) : EvalFile :=
  if negb (String.eqb (current evalFile) file)
  then
    let evalFile1 :=
      if negb (String.eqb directory "<internal>")
      then match load_eval_file (directory ++ file) netSize with
           | Some description => loaded evalFile file description
           | None => evalFile
           end
      else evalFile in
    if String.eqb directory "<internal>" && String.eqb file (defaultName evalFile1)
    then match load_eval_embedded netSize with
         | Some description => loaded evalFile1 file description
         | None => evalFile1
         end
    else evalFile1
  else evalFile.

(** [dirs] without [DEFAULT_NNUE_DIRECTORY]. *)
Definition dirs (rootDirectory : string) : list string :=
  ["<internal>"; ""; rootDirectory].

(** The body of the loop over [evalFiles]. *)
Definition load_network (rootDirectory : string) (netSize : NetSize) (evalFile : EvalFile)
  : EvalFile :=
  fold_left (try_directory netSize (user_eval_file evalFile)) (dirs rootDirectory) evalFile.

Definition load_networks (rootDirectory : string) (evalFiles : EvalFiles) : EvalFiles :=
  map (fun entry => (fst entry, load_network rootDirectory (fst entry) (snd entry)))
      evalFiles.

(** The five lines [verify] writes before it exits, and the line it writes
    for a network that is loaded. *)
Definition verify_errors (evalFile : EvalFile) : list string :=
  [ "info string ERROR: "
      ++ "Network evaluation parameters compatible with the engine must be available.";
    "info string ERROR: "
      ++ "The network file " ++ user_eval_file evalFile ++ " was not loaded successfully.";
    "info string ERROR: "
      ++ "The UCI option EvalFile might need to specify the full path, "
      ++ "including the directory name, to the network file.";
    "info string ERROR: "
      ++ "The default net can be downloaded from: "
      ++ "https://tests.stockfishchess.org/api/nn/" ++ defaultName evalFile;
    "info string ERROR: " ++ "The engine will be terminated now." ].

Definition verify_info (evalFile : EvalFile) : string :=
  "info string NNUE evaluation using " ++ user_eval_file evalFile.

(** [verify], with the lines written so far. *)
Fixpoint verify_from (evalFiles : EvalFiles) (out : list string) : VerifyResult :=
  match evalFiles with
  | [] => Verified out
  | (_, evalFile) :: rest =>
      if negb (String.eqb (current evalFile) (user_eval_file evalFile))
      then Terminated TT.EXIT_FAILURE (out ++ verify_errors evalFile)%list
      else verify_from rest (out ++ [verify_info evalFile])%list
  end.

Definition verify (evalFiles : EvalFiles) : VerifyResult := verify_from evalFiles [].

(** The network of an entry is the one asked for. *)
Definition is_current (evalFile : EvalFile) : Prop :=
  current evalFile = user_eval_file evalFile.

(** The first source that yields a network of the name [file]: the
    embedded one, for the default name only; then the working directory;
    then the root directory. *)
Definition first_source (rootDirectory : string) (netSize : NetSize) (evalFile : EvalFile)
           (file : string) : option string :=
  match (if String.eqb file (defaultName evalFile) then load_eval_embedded netSize
         else None) with
  | Some description => Some description
  | None =>
      match load_eval_file ("" ++ file) netSize with
      | Some description => Some description
      | None => load_eval_file (rootDirectory ++ file) netSize
      end
  end.

(** ** Properties of [load_networks] and [verify] *)

Lemma try_directory_current (netSize : NetSize) (file : string) (evalFile : EvalFile)
      (directory : string) :
  current evalFile = file -> try_directory netSize file evalFile directory = evalFile.
Proof.
  intros H. unfold try_directory. rewrite H, String.eqb_refl. reflexivity.
Qed.

Lemma load_network_names (rootDirectory : string) (netSize : NetSize) (evalFile : EvalFile) :
  optionName (load_network rootDirectory netSize evalFile) = optionName evalFile
  /\ defaultName (load_network rootDirectory netSize evalFile) = defaultName evalFile.
Proof.
  unfold load_network. generalize (user_eval_file evalFile) as file. intros file.
  assert (Hstep : forall ef d,
             optionName (try_directory netSize file ef d) = optionName ef
             /\ defaultName (try_directory netSize file ef d) = defaultName ef).
  { intros ef d. unfold try_directory.
    destruct (negb (String.eqb (current ef) file)); [|split; reflexivity].
    destruct (negb (String.eqb d "<internal>"));
      [destruct (load_eval_file (d ++ file) netSize)|]; simpl;
      (destruct (String.eqb d "<internal>" && String.eqb file (defaultName ef));
       [destruct (load_eval_embedded netSize)|]; split; reflexivity). }
  unfold dirs. simpl.
  destruct (Hstep evalFile "<internal>") as [H1 H1'].
  destruct (Hstep (try_directory netSize file evalFile "<internal>") "") as [H2 H2'].
  destruct (Hstep (try_directory netSize file
                     (try_directory netSize file evalFile "<internal>") "")
                  rootDirectory) as [H3 H3'].
  split; congruence.
Qed.

Lemma load_network_sources (rootDirectory : string) (netSize : NetSize)
      (evalFile : EvalFile) :
  rootDirectory <> "<internal>" ->
  ~ is_current evalFile ->
  load_network rootDirectory netSize evalFile
  = match first_source rootDirectory netSize evalFile (user_eval_file evalFile) with
    | Some description => loaded evalFile (user_eval_file evalFile) description
    | None => evalFile
    end.
Proof.
  intros Hroot Hcur. unfold is_current in Hcur.
  unfold load_network, first_source, dirs. simpl fold_left.
  set (file := user_eval_file evalFile) in *.
  assert (Hne : String.eqb (current evalFile) file = false)
    by (apply String.eqb_neq; exact Hcur).
  assert (Hr : String.eqb rootDirectory "<internal>" = false)
    by (apply String.eqb_neq; exact Hroot).
  assert (Hdone : forall description d,
             try_directory netSize file (loaded evalFile file description) d
             = loaded evalFile file description).
  { intros description d. apply try_directory_current. reflexivity. }
  (* the embedded network *)
  assert (H1 : try_directory netSize file evalFile "<internal>"
               = match (if String.eqb file (defaultName evalFile)
                        then load_eval_embedded netSize else None) with
                 | Some description => loaded evalFile file description
                 | None => evalFile
                 end).
  { unfold try_directory. rewrite Hne. simpl.
    destruct (String.eqb file (defaultName evalFile)); [|reflexivity].
    destruct (load_eval_embedded netSize); reflexivity. }
  rewrite H1.
  destruct (if String.eqb file (defaultName evalFile) then load_eval_embedded netSize
            else None) as [description|].
  { rewrite !Hdone. reflexivity. }
  (* the working directory *)
  assert (H2 : try_directory netSize file evalFile ""
               = match load_eval_file ("" ++ file) netSize with
                 | Some description => loaded evalFile file description
                 | None => evalFile
                 end).
  { unfold try_directory. rewrite Hne. simpl.
    destruct (load_eval_file file netSize); reflexivity. }
  rewrite H2.
  destruct (load_eval_file ("" ++ file) netSize) as [description|].
  { rewrite Hdone. reflexivity. }
  (* the root directory *)
  unfold try_directory. rewrite Hne, Hr. simpl.
  destruct (load_eval_file (rootDirectory ++ file) netSize); reflexivity.
Qed.

Lemma load_network_kept (rootDirectory : string) (netSize : NetSize)
      (evalFile : EvalFile) :
  is_current evalFile -> load_network rootDirectory netSize evalFile = evalFile.
Proof.
  intros H. unfold load_network, dirs. simpl.
  do 3 rewrite (try_directory_current netSize (user_eval_file evalFile) evalFile _ H).
  reflexivity.
Qed.

(** X21.  [load_networks] never reloads a network that is current: an
    entry whose [current] is the name asked for (the option, or the default
    name when the option is empty) comes back unchanged, and no source is
    read for it. *)
Theorem load_network_current (rootDirectory : string) (netSize : NetSize)
        (evalFile : EvalFile) :
  is_current evalFile -> load_network rootDirectory netSize evalFile = evalFile.
Proof. apply load_network_kept. Qed.

(** X22.  For an entry that is not current, [load_networks] tries the
    sources in a fixed order and stops at the first that yields a network:
    the network embedded in the binary, only when the name asked for is the
    default name; then the file of that name in the working directory;
    then the one in the root directory.  The entry then records the name
    and the description of that network; when no source yields one, the
    entry is unchanged. *)
Theorem load_network_first_source (rootDirectory : string) (netSize : NetSize)
        (evalFile : EvalFile) :
  rootDirectory <> "<internal>" ->
  ~ is_current evalFile ->
  load_network rootDirectory netSize evalFile
  = match first_source rootDirectory netSize evalFile (user_eval_file evalFile) with
    | Some description => loaded evalFile (user_eval_file evalFile) description
    | None => evalFile
    end.
Proof. apply load_network_sources. Qed.

Lemma verify_from_all (evalFiles : EvalFiles) :
  forall out,
    Forall (fun entry => is_current (snd entry)) evalFiles ->
    verify_from evalFiles out
    = Verified (out ++ map (fun entry => verify_info (snd entry)) evalFiles)%list.
Proof.
  induction evalFiles as [|[netSize evalFile] rest IH]; intros out Hall.
  - simpl. rewrite app_nil_r. reflexivity.
  - apply Forall_cons in Hall as [Hcur Hall]. simpl in Hcur. unfold is_current in Hcur.
    simpl. rewrite Hcur, String.eqb_refl. simpl.
    rewrite (IH _ Hall), <- app_assoc. reflexivity.
Qed.

Lemma verify_from_first (pre post : EvalFiles) (netSize : NetSize) (evalFile : EvalFile) :
  forall out,
    Forall (fun entry => is_current (snd entry)) pre ->
    ~ is_current evalFile ->
    verify_from (pre ++ (netSize, evalFile) :: post)%list out
    = Terminated TT.EXIT_FAILURE
        (out ++ map (fun entry => verify_info (snd entry)) pre
             ++ verify_errors evalFile)%list.
Proof.
  induction pre as [|[ns ef] pre IH]; intros out Hall Hcur.
  - simpl. unfold is_current in Hcur.
    apply String.eqb_neq in Hcur. rewrite Hcur. reflexivity.
  - apply Forall_cons in Hall as [Hc Hall]. simpl in Hc. unfold is_current in Hc.
    simpl. rewrite Hc, String.eqb_refl. simpl.
    rewrite (IH _ Hall Hcur), <- app_assoc. reflexivity.
Qed.

(** X23.  [verify] passes exactly when every entry is current, writing one
    line per network; otherwise it stops at the first entry that is not,
    after the lines of the entries before it, writes the five error lines
    (naming the file asked for and the default net) and exits with
    [EXIT_FAILURE]: the entries after it are not looked at. *)
Theorem verify_first_failure (evalFiles : EvalFiles) :
  (Forall (fun entry => is_current (snd entry)) evalFiles ->
   verify evalFiles = Verified (map (fun entry => verify_info (snd entry)) evalFiles))
  /\ (forall pre netSize evalFile post,
        evalFiles = (pre ++ (netSize, evalFile) :: post)%list ->
        Forall (fun entry => is_current (snd entry)) pre ->
        ~ is_current evalFile ->
        verify evalFiles
        = Terminated TT.EXIT_FAILURE
            (map (fun entry => verify_info (snd entry)) pre ++ verify_errors evalFile)%list
        /\ TT.EXIT_FAILURE <> 0%Z)
  /\ (forall out, verify evalFiles = Verified out ->
                  Forall (fun entry => is_current (snd entry)) evalFiles).
Proof.
  unfold verify. split; [|split].
  - intros Hall. rewrite verify_from_all by exact Hall. reflexivity.
  - intros pre netSize evalFile post -> Hall Hcur.
    rewrite verify_from_first by assumption. split; [reflexivity | discriminate].
  - generalize (@nil string) as acc. induction evalFiles as [|[ns ef] rest IH]; intros acc out H.
    + constructor.
    + simpl in H.
      destruct (String.eqb (current ef) (user_eval_file ef)) eqn:E; simpl in H;
        [|discriminate].
      constructor; [apply String.eqb_eq, E | eapply IH, H].
Qed.

(** X24.  [load_networks], then [verify]: when every entry is current or
    has a source that yields a network of the name asked for, [verify]
    passes on the result; an entry that is not current and has no such
    source makes it exit. *)
Theorem load_then_verify (rootDirectory : string) (evalFiles : EvalFiles) :
  rootDirectory <> "<internal>" ->
  (Forall (fun entry =>
             is_current (snd entry)
             \/ first_source rootDirectory (fst entry) (snd entry)
                  (user_eval_file (snd entry)) <> None) evalFiles ->
   exists out, verify (load_networks rootDirectory evalFiles) = Verified out)
  /\ (forall netSize evalFile,
        In (netSize, evalFile) evalFiles ->
        ~ is_current evalFile ->
        first_source rootDirectory netSize evalFile (user_eval_file evalFile) = None ->
        exists out, verify (load_networks rootDirectory evalFiles)
                    = Terminated TT.EXIT_FAILURE out).
Proof.
  intros Hroot.
  assert (Huser : forall ns ef,
             user_eval_file (load_network rootDirectory ns ef) = user_eval_file ef).
  { intros ns ef. unfold user_eval_file.
    destruct (load_network_names rootDirectory ns ef) as [-> ->]. reflexivity. }
  assert (Hgood : forall ns ef,
             is_current ef
             \/ first_source rootDirectory ns ef (user_eval_file ef) <> None ->
             is_current (load_network rootDirectory ns ef)).
  { intros ns ef [Hcur | Hsrc].
    - rewrite load_network_kept by exact Hcur. exact Hcur.
    - destruct (String.eqb (current ef) (user_eval_file ef)) eqn:E.
      + apply String.eqb_eq in E. rewrite load_network_kept by exact E. exact E.
      + apply String.eqb_neq in E. unfold is_current. rewrite Huser.
        rewrite load_network_sources by assumption.
        destruct (first_source rootDirectory ns ef (user_eval_file ef));
          [reflexivity | contradiction]. }
  split.
  - intros Hall. eexists. unfold verify. apply verify_from_all.
    unfold load_networks. apply Forall_map.
    eapply Forall_impl; [exact Hall|]. intros [ns ef] H. simpl in *. apply Hgood, H.
  - intros netSize evalFile Hin Hcur Hnone. unfold verify.
    generalize (@nil string) as acc.
    induction evalFiles as [|[ns ef] rest IH]; intros acc; [destruct Hin|].
    simpl.
    destruct (String.eqb (current (load_network rootDirectory ns ef))
                (user_eval_file (load_network rootDirectory ns ef))) eqn:E; simpl.
    + destruct Hin as [Heq | Hin].
      * exfalso. injection Heq as -> ->.
        apply String.eqb_eq in E. rewrite Huser in E.
        rewrite load_network_sources in E by assumption.
        rewrite Hnone in E. exact (Hcur E).
      * apply IH, Hin.
    + eexists. reflexivity.
Qed.

End Load.

(** ** [load_networks] and [verify] on a small file system

    The default big network is embedded; the working directory holds
    [mynet.nnue]; the option [EvalFile] asks for it, [EvalFileSmall] is
    empty. *)
Module SF.

Definition options (name : string) : string :=
  if String.eqb name "EvalFile" then "mynet.nnue" else "".

Definition load_eval_file (path : string) (netSize : NetSize) : option string :=
  if String.eqb path "mynet.nnue" then Some "my own net" else None.

Definition load_eval_embedded (netSize : NetSize) : option string :=
  match netSize with
  | Big => Some "embedded big net"
  | Small => None
  end.

Definition big_file : EvalFile :=
  mkEvalFile "EvalFile" "nn-1ceb1ade0001.nnue" "None" "".
Definition small_file : EvalFile :=
  mkEvalFile "EvalFileSmall" "nn-baff1ede1f90.nnue" "None" "".
Definition loaded_file : EvalFile :=
  mkEvalFile "EvalFile" "nn-1ceb1ade0001.nnue" "mynet.nnue" "my own net".

End SF.

Lemma load_network_current_witness :
  load_network SF.options SF.load_eval_file SF.load_eval_embedded "/opt/engine/" Big
    SF.loaded_file
  = SF.loaded_file.
Proof.
  apply (load_network_current SF.options SF.load_eval_file SF.load_eval_embedded
           "/opt/engine/" Big SF.loaded_file).
  reflexivity.
Defined.

Lemma load_network_first_source_witness :
  load_network SF.options SF.load_eval_file SF.load_eval_embedded "/opt/engine/" Big
    SF.big_file
  = match first_source SF.load_eval_file SF.load_eval_embedded "/opt/engine/" Big
            SF.big_file (user_eval_file SF.options SF.big_file) with
    | Some description =>
        loaded SF.big_file (user_eval_file SF.options SF.big_file) description
    | None => SF.big_file
    end.
Proof.
  apply (load_network_first_source SF.options SF.load_eval_file SF.load_eval_embedded
           "/opt/engine/" Big SF.big_file).
  - discriminate.
  - discriminate.
Defined.

(** The big network comes from the working directory; the small one, not
    embedded and not on disk, stays unloaded, and [verify] exits at it
    after the line for the big one. *)
Example load_networks_example :
  load_networks SF.options SF.load_eval_file SF.load_eval_embedded "/opt/engine/"
    [(Big, SF.big_file); (Small, SF.small_file)]
  = [(Big, SF.loaded_file); (Small, SF.small_file)]
  /\ verify SF.options [(Big, SF.loaded_file); (Small, SF.small_file)]
     = Terminated 1
         ("info string NNUE evaluation using mynet.nnue"
            :: verify_errors SF.options SF.small_file).
Proof. vm_compute. split; reflexivity. Qed.

Lemma load_then_verify_witness :
  exists out,
    verify SF.options
      (load_networks SF.options SF.load_eval_file SF.load_eval_embedded "/opt/engine/"
         [(Big, SF.big_file)])
    = Verified out.
Proof.
  refine (proj1 (load_then_verify SF.options SF.load_eval_file SF.load_eval_embedded
                   "/opt/engine/" [(Big, SF.big_file)] _) _).
  - discriminate.
  - constructor; [|constructor]. right. discriminate.
Defined.

Lemma verify_first_failure_witness :
  verify SF.options [(Big, SF.loaded_file); (Small, SF.small_file)]
  = Terminated TT.EXIT_FAILURE
      (map (fun entry => verify_info SF.options (snd entry)) [(Big, SF.loaded_file)]
         ++ verify_errors SF.options SF.small_file)%list
  /\ TT.EXIT_FAILURE <> 0%Z.
Proof.
  apply (proj1 (proj2 (verify_first_failure SF.options
                         [(Big, SF.loaded_file); (Small, SF.small_file)]))
               [(Big, SF.loaded_file)] Small SF.small_file []).
  - reflexivity.
  - constructor; [reflexivity | constructor].
  - discriminate.
Defined.

End NNUE.
